(** * OptionsPriceCalculator: the binomial lattice pricer and its Greeks

    A shallow embedding of [binomial_tree] and [calculate_greeks] from
    [OptionsPriceCalculator.py].

    Numbers.  Python floats are modelled by the real numbers of the
    Standard Library: binary64 rounding, overflow, infinities and NaN are
    left out, every arithmetic operation is exact.  The step count [n] is a
    Python [int], here [Z].  The option type is a Python [str], here
    [string]; its default value "call" is not modelled, every argument is
    passed explicitly.

    Exceptions.  The operations of the source that can raise are modelled
    with an explicit result type: float division by zero raises
    [ZeroDivisionError], [math.sqrt] of a negative number raises
    [ValueError], an index outside a list raises [IndexError]. *)

From Stdlib Require Import Reals Lra Lia ZArith String List.
From stdpp Require Import base list.

Open Scope R_scope.

(** ** Python exceptions and the result monad *)

Inductive exn : Type :=
| ZeroDivisionError
| ValueError
| IndexError.

Inductive result (A : Type) : Type :=
| Ok (a : A)
| Raise (e : exn).

Arguments Ok {A} a.
Arguments Raise {A} e.

Definition rbind {A B : Type} (m : result A) (k : A -> result B) : result B :=
  match m with
  | Ok a => k a
  | Raise e => Raise e
  end.

Notation "x <~ m ;; k" := (rbind m (fun x => k))
  (at level 100, m at next level, right associativity).

Definition is_ok {A : Type} (m : result A) : Prop := exists a, m = Ok a.
Definition is_error {A : Type} (m : result A) : Prop := exists e, m = Raise e.

(** ** Python primitives used by the pricer *)

(** [x / y] on floats. *)
Definition py_div (x y : R) : result R :=
  if Req_dec_T y 0 then Raise ZeroDivisionError else Ok (x / y).

(** [math.sqrt(x)]. *)
Definition py_sqrt (x : R) : result R :=
  if Rlt_dec x 0 then Raise ValueError else Ok (sqrt x).

(** [max(a, b)]: Python keeps the first argument unless the second is
    strictly greater. *)
Definition py_max (a b : R) : R :=
  if Rlt_dec a b then b else a.

(** [l[j]] for a non-negative index. *)
Definition py_index (l : list R) (j : nat) : result R :=
  match l !! j with
  | Some v => Ok v
  | None => Raise IndexError
  end.

(** [l[j] = x] for a non-negative index; the list is updated in place, the
    updated list is threaded through the model. *)
Definition py_store (l : list R) (j : nat) (x : R) : result (list R) :=
  if (j <? length l)%nat then Ok (<[j := x]> l) else Raise IndexError.

(** [for x in xs: acc = body(acc, x)], stopping at the first exception. *)
Fixpoint for_each {A B : Type} (body : B -> A -> result B) (xs : list A)
  (acc : B) : result B :=
  match xs with
  | [] => Ok acc
  | x :: xs' => acc' <~ body acc x ;; for_each body xs' acc'
  end.

(** [range(m)] for an [int] m: empty when m <= 0. *)
Definition range (m : Z) : list nat := seq 0 (Z.to_nat m).

(** [range(m - 1, -1, -1)]: m-1, m-2, ..., 0; empty when m <= 0. *)
Definition range_down (m : Z) : list nat := rev (seq 0 (Z.to_nat m)).

(** ** binomial_tree *)

(** [option_type == "call"]. *)
Definition is_call (option_type : string) : bool :=
  String.eqb option_type "call".

(** [stock_price - K if option_type == "call" else K - stock_price] *)
Definition exercise (option_type : string) (K stock_price : R) : R :=
  if is_call option_type then stock_price - K else K - stock_price.

(** One element of the list comprehensions of Step 2:
    [max(price - K, 0)] or [max(K - price, 0)]. *)
Definition terminal_value (option_type : string) (K price : R) : R :=
  py_max (exercise option_type K price) 0.

(** The body of the inner loop of Step 3 at node (i, j); the exponents
    [j] and [i - j] are non-negative there. *)
Definition node_update (S K r dt u d p : R) (option_type : string)
  (i : nat) (option_values : list R) (j : nat) : result (list R) :=
  let stock_price := S * u ^ j * d ^ (i - j) in
  v_up <~ py_index option_values (j + 1) ;;
  v_down <~ py_index option_values j ;;
  py_store option_values j
    (py_max (exp (- r * dt) * (p * v_up + (1 - p) * v_down))
            (exercise option_type K stock_price)).

(** The inner loop: [for j in range(i + 1)]. *)
Definition level_update (S K r dt u d p : R) (option_type : string)
  (option_values : list R) (i : nat) : result (list R) :=
  for_each (node_update S K r dt u d p option_type i)
           (range (Z.of_nat i + 1)) option_values.

(** Steps 1 and 2: the terminal stock prices and option values. *)
Definition terminal_prices (S u d : R) (n : Z) : list R :=
  map (fun j : nat => S * u ^ j * d ^ Z.to_nat (n - Z.of_nat j)) (range (n + 1)).

Definition terminal_values (S K u d : R) (n : Z) (option_type : string) : list R :=
  map (terminal_value option_type K) (terminal_prices S u d n).

Definition binomial_tree (S K T r sigma : R) (n : Z) (option_type : string)
  : result R :=
  dt <~ py_div T (IZR n) ;;
  sq <~ py_sqrt dt ;;
  let u := exp (sigma * sq) in
  d <~ py_div 1 u ;;
  p <~ py_div (exp (r * dt) - d) (u - d) ;;
  let option_values := terminal_values S K u d n option_type in
  option_values <~ for_each (level_update S K r dt u d p option_type)
                            (range_down n) option_values ;;
  py_index option_values 0.

(** ** The value the two loops compute

    [tree_value k i j] is the value the backward pass leaves at node
    (i, j) when the leaves are [k] levels below it: the closed form of the
    in-place updates of [node_update], with the same operations in the same
    order. *)

Section Lattice.

Variables (S K r dt u d p : R) (option_type : string).

Definition stock_at (i j : nat) : R := S * u ^ j * d ^ (i - j).

Fixpoint tree_value (k i j : nat) : R :=
  match k with
  | O => terminal_value option_type K (stock_at i j)
  | Datatypes.S k' =>
      py_max (exp (- r * dt)
              * (p * tree_value k' (i + 1) (j + 1)
                 + (1 - p) * tree_value k' (i + 1) j))
             (exercise option_type K (stock_at i j))
  end.

(** Entries [0..i] of the working list hold the values of depth [i]. *)
Definition level_holds (k i : nat) (vals : list R) : Prop :=
  forall j : nat, (j <= i)%nat -> vals !! j = Some (tree_value k i j).

(** Inside the inner loop at depth [i], before index [m] is processed:
    the entries below [m] are already those of depth [i], the entries
    from [m] to [i + 1] are still those of depth [i + 1]. *)
Definition level_partial (k i m : nat) (vals : list R) : Prop :=
  (forall j : nat, (j < m)%nat -> vals !! j = Some (tree_value (Datatypes.S k) i j))
  /\ (forall j : nat, (m <= j <= i + 1)%nat ->
                      vals !! j = Some (tree_value k (i + 1) j)).

End Lattice.


(** ** The local variables of [binomial_tree] as functions of its inputs

    The values of [dt], [u], [d] and [p] on the runs where none of the
    divisions and no square root raises. *)

Definition step_dt (T : R) (n : Z) : R := T / IZR n.

Definition up_factor (T sigma : R) (n : Z) : R :=
  exp (sigma * sqrt (step_dt T n)).

Definition down_factor (T sigma : R) (n : Z) : R := 1 / up_factor T sigma n.

Definition up_prob (T r sigma : R) (n : Z) : R :=
  (exp (r * step_dt T n) - down_factor T sigma n)
  / (up_factor T sigma n - down_factor T sigma n).

(** The value at node (0, 0), in closed form. *)
Definition root_value (S K T r sigma : R) (n : Z) (option_type : string) : R :=
  tree_value S K r (step_dt T n) (up_factor T sigma n) (down_factor T sigma n)
             (up_prob T r sigma n) option_type (Z.to_nat n) 0 0.

(** ** calculate_greeks

    Every call of [binomial_tree] made by [calculate_greeks] is recorded, in
    order, in a log that is threaded through the computation; an exception
    stops the computation and keeps the log of the calls made so far. *)

Record pricer_call : Type := PricerCall {
  arg_S : R;
  arg_K : R;
  arg_T : R;
  arg_r : R;
  arg_sigma : R;
  arg_n : Z;
  arg_option_type : string
}.

Definition traced (A : Type) : Type :=
  list pricer_call -> result A * list pricer_call.

Definition tret {A : Type} (a : A) : traced A := fun log => (Ok a, log).

Definition tbind {A B : Type} (m : traced A) (k : A -> traced B) : traced B :=
  fun log =>
    match m log with
    | (Ok a, log') => k a log'
    | (Raise e, log') => (Raise e, log')
    end.

(** A step that calls no pricer. *)
Definition pure_step {A : Type} (m : result A) : traced A := fun log => (m, log).

(** [binomial_tree(S, K, T, r, sigma, n, option_type)] as called from
    [calculate_greeks]. *)
Definition call_binomial_tree (S K T r sigma : R) (n : Z) (option_type : string)
  : traced R :=
  fun log => (binomial_tree S K T r sigma n option_type,
              log ++ [PricerCall S K T r sigma n option_type]).

Notation "x <~~ m ;; k" := (tbind m (fun x => k))
  (at level 100, m at next level, right associativity).

Definition calculate_greeks_traced (S K T r sigma : R) (n : Z)
  (option_type : string) : traced (R * R * R * R * R) :=
  let epsilon := 0.01 in
  (* Delta *)
  let S_up := S * 1.01 in
  let S_down := S * 0.99 in
  V_up <~~ call_binomial_tree S_up K T r sigma n option_type ;;
  V_down <~~ call_binomial_tree S_down K T r sigma n option_type ;;
  delta <~~ pure_step (py_div (V_up - V_down) (S_up - S_down)) ;;
  (* Gamma *)
  V_up_up <~~ call_binomial_tree (S_up * 1.01) K T r sigma n option_type ;;
  delta_up <~~ pure_step (py_div (V_up_up - V_up) (S_up * 1.01 - S_up)) ;;
  V_down_down <~~ call_binomial_tree (S_down * 0.99) K T r sigma n option_type ;;
  delta_down <~~ pure_step (py_div (V_down - V_down_down) (S_down - S_down * 0.99)) ;;
  gamma <~~ pure_step (py_div (delta_up - delta_down) (S_up - S_down)) ;;
  (* Vega *)
  V_vol_up <~~ call_binomial_tree S K T r (sigma + epsilon) n option_type ;;
  V_vol_down <~~ call_binomial_tree S K T r (sigma - epsilon) n option_type ;;
  vega0 <~~ pure_step (py_div (V_vol_up - V_vol_down) (2 * epsilon)) ;;
  vega <~~ pure_step (py_div vega0 100) ;;
  (* Theta *)
  dt <~~ pure_step (py_div 1 365) ;;
  V_current <~~ call_binomial_tree S K T r sigma n option_type ;;
  V_T_down <~~ call_binomial_tree S K (T - dt) r sigma n option_type ;;
  theta0 <~~ pure_step (py_div (V_T_down - V_current) dt) ;;
  theta <~~ pure_step (py_div theta0 365) ;;
  (* Rho *)
  V_r_up <~~ call_binomial_tree S K T (r + epsilon) sigma n option_type ;;
  V_r_down <~~ call_binomial_tree S K T (r - epsilon) sigma n option_type ;;
  rho0 <~~ pure_step (py_div (V_r_up - V_r_down) (2 * epsilon)) ;;
  rho <~~ pure_step (py_div rho0 100) ;;
  tret (delta, gamma, vega, theta, rho).

(** The value [calculate_greeks] returns, or the exception it raises. *)
Definition calculate_greeks (S K T r sigma : R) (n : Z) (option_type : string)
  : result (R * R * R * R * R) :=
  fst (calculate_greeks_traced S K T r sigma n option_type []).

(** The pricer calls one run of [calculate_greeks] makes, in order. *)
Definition pricer_calls (S K T r sigma : R) (n : Z) (option_type : string)
  : list pricer_call :=
  snd (calculate_greeks_traced S K T r sigma n option_type []).

#[global] Instance R_eq_dec : EqDecision R := Req_dec_T.

#[global] Instance pricer_call_eq_dec : EqDecision pricer_call.
Proof.
  intros [S1 K1 T1 r1 s1 n1 o1] [S2 K2 T2 r2 s2 n2 o2].
  destruct (Req_dec_T S1 S2) as [-> | N]; [| right; congruence].
  destruct (Req_dec_T K1 K2) as [-> | N]; [| right; congruence].
  destruct (Req_dec_T T1 T2) as [-> | N]; [| right; congruence].
  destruct (Req_dec_T r1 r2) as [-> | N]; [| right; congruence].
  destruct (Req_dec_T s1 s2) as [-> | N]; [| right; congruence].
  destruct (Z.eq_dec n1 n2) as [-> | N]; [| right; congruence].
  destruct (string_dec o1 o2) as [-> | N]; [| right; congruence].
  left; reflexivity.
Defined.

(** The calls of a log whose arguments differ from the unperturbed ones:
    the calls beyond the base price. *)
Definition perturbed_calls (base : pricer_call) (log : list pricer_call)
  : list pricer_call :=
  filter (fun c => c <> base) log.

Definition delta_of (g : R * R * R * R * R) : R :=
  let '(delta, _, _, _, _) := g in delta.

Definition theta_of (g : R * R * R * R * R) : R :=
  let '(_, _, _, theta, _) := g in theta.

(** The ten argument tuples [calculate_greeks] passes to [binomial_tree], in
    program order: two for delta, two more for gamma, two for vega, the
    unperturbed one and one more for theta, two for rho. *)
Definition greeks_calls (S K T r sigma : R) (n : Z) (option_type : string)
  : list pricer_call :=
  [ PricerCall (S * 1.01) K T r sigma n option_type;
    PricerCall (S * 0.99) K T r sigma n option_type;
    PricerCall (S * 1.01 * 1.01) K T r sigma n option_type;
    PricerCall (S * 0.99 * 0.99) K T r sigma n option_type;
    PricerCall S K T r (sigma + 0.01) n option_type;
    PricerCall S K T r (sigma - 0.01) n option_type;
    PricerCall S K T r sigma n option_type;
    PricerCall S K (T - 1 / 365) r sigma n option_type;
    PricerCall S K T (r + 0.01) sigma n option_type;
    PricerCall S K T (r - 0.01) sigma n option_type ].

(** The five quotients of [calculate_greeks] as a function of the spot and
    of the ten prices, in the order of [greeks_calls]. *)
Definition greeks_quotients (S : R)
  (V_up V_down V_up_up V_down_down V_vol_up V_vol_down
   V_current V_T_down V_r_up V_r_down : R) : R * R * R * R * R :=
  ((V_up - V_down) / (S * 1.01 - S * 0.99),
   ((V_up_up - V_up) / (S * 1.01 * 1.01 - S * 1.01)
    - (V_down - V_down_down) / (S * 0.99 - S * 0.99 * 0.99))
   / (S * 1.01 - S * 0.99),
   (V_vol_up - V_vol_down) / (2 * 0.01) / 100,
   (V_T_down - V_current) / (1 / 365) / 365,
   (V_r_up - V_r_down) / (2 * 0.01) / 100).

(** Two traced computations that return the same result whatever their
    logs. *)
Definition same_result {A : Type} (m m' : traced A) : Prop :=
  forall log log' : list pricer_call, fst (m log) = fst (m' log').

(** ** The states of the working list during the backward pass

    The two nested loops visit the nodes (i, j) in the order of
    [schedule]; [held_values] is the working list after the first [steps]
    node updates. *)

Definition schedule (n : Z) : list (nat * nat) :=
  flat_map (fun i : nat => map (fun j : nat => (i, j)) (range (Z.of_nat i + 1)))
           (range_down n).

Definition held_values (S K T r sigma : R) (n : Z) (option_type : string)
  (steps : nat) : result (list R) :=
  let dt := step_dt T n in
  let u := up_factor T sigma n in
  let d := down_factor T sigma n in
  let p := up_prob T r sigma n in
  for_each (fun vals ij => node_update S K r dt u d p option_type ij.1 vals ij.2)
           (take steps (schedule n))
           (terminal_values S K u d n option_type).

(** ** The backward induction as the specification words it *)

Module Spec.

Inductive variant : Type := call | put.

Section Induction.

Variables (S K T r sigma : R) (n : nat) (v : variant).

Definition dt : R := T / INR n.
Definition u : R := exp (sigma * sqrt dt).
Definition d : R := 1 / u.
Definition p : R := (exp (r * dt) - d) / (u - d).

(** Stock price at node (i, j): j ups and i - j downs. *)
Definition price_at (i j : nat) : R := S * u ^ j * d ^ (i - j).

(** max(price - K, 0) for calls, max(K - price, 0) for puts. *)
Definition payoff (price : R) : R :=
  match v with
  | call => Rmax (price - K) 0
  | put => Rmax (K - price) 0
  end.

(** Value at node (i, j) of depth i = n - k. *)
Fixpoint V (k i j : nat) : R :=
  match k with
  | O => payoff (price_at i j)
  | Datatypes.S k' =>
      Rmax (exp (- r * dt) * (p * V k' (i + 1) (j + 1) + (1 - p) * V k' (i + 1) j))
           (payoff (price_at i j))
  end.

(** The value at node (0, 0). *)
Definition price : R := V n 0 0.

End Induction.

End Spec.

(** The variant an [option_type] string selects. *)
Definition variant_of (option_type : string) : Spec.variant :=
  if is_call option_type then Spec.call else Spec.put.

(** ** The same backward pass without the early-exercise comparison

    [european_value] is [tree_value] with the second argument of the [max]
    of [node_update] (line 29 of the source) left out: the discounted
    expectation alone at every node above the leaves. *)

Section European.

Variables (S K r dt u d p : R) (option_type : string).

Fixpoint european_value (k i j : nat) : R :=
  match k with
  | O => terminal_value option_type K (stock_at S u d i j)
  | Datatypes.S k' =>
      exp (- r * dt)
      * (p * european_value k' (i + 1) (j + 1)
         + (1 - p) * european_value k' (i + 1) j)
  end.

End European.

(** ** The pricer calls a traced computation may make

    [consumes m cs]: started on any log, [m] either returns after appending
    exactly the calls [cs], or raises after appending a prefix of [cs]. *)

Definition consumes {A : Type} (m : traced A) (cs : list pricer_call) : Prop :=
  forall log : list pricer_call,
    (exists a : A, m log = (Ok a, log ++ cs))
    \/ (exists (e : exn) (cs' : list pricer_call),
           m log = (Raise e, log ++ cs') /\ cs' `prefix_of` cs).

Definition gamma_of (g : R * R * R * R * R) : R :=
  let '(_, gamma, _, _, _) := g in gamma.

Definition vega_of (g : R * R * R * R * R) : R :=
  let '(_, _, vega, _, _) := g in vega.

Definition rho_of (g : R * R * R * R * R) : R :=
  let '(_, _, _, _, rho) := g in rho.

(** ** The Calculate handler of the page

    The computation of lines 88-106 of the source: the widgets, the quote
    retrieval and the rendering are left out; the values the widgets return
    are the arguments.  [days_to_expiration] is the [int] of the
    number input (minimum 1), [option_type] the string of the select box
    ("Call" or "Put"). *)

(** [str.lower] on ASCII strings. *)
Definition lower_ascii (c : Ascii.ascii) : Ascii.ascii :=
  let code := Ascii.nat_of_ascii c in
  if ((65 <=? code)%nat && (code <=? 90)%nat)%bool
  then Ascii.ascii_of_nat (code + 32)
  else c.

Fixpoint lower (s : string) : string :=
  match s with
  | EmptyString => EmptyString
  | String c s' => String (lower_ascii c) (lower s')
  end.

Definition on_calculate (current_price K : R) (days_to_expiration : Z)
  (r sigma : R) (option_type : string) : result (R * (R * R * R * R * R)) :=
  T <~ py_div (IZR days_to_expiration) 365 ;;
  let n := Z.max days_to_expiration 100 in
  price <~ binomial_tree current_price K T r sigma n (lower option_type) ;;
  greeks <~ calculate_greeks current_price K T r sigma n (lower option_type) ;;
  Ok (price, greeks).

(** ** Basic facts about the primitives *)

Lemma py_div_ok (x y : R) : y <> 0 -> py_div x y = Ok (x / y).
Proof.
  intros Hy. unfold py_div. destruct (Req_dec_T y 0) as [E | _]; [contradiction | reflexivity].
Qed.

Lemma py_div_zero (x : R) : py_div x 0 = Raise ZeroDivisionError.
Proof.
  unfold py_div. destruct (Req_dec_T 0 0) as [_ | N]; [reflexivity | contradiction].
Qed.

Lemma py_sqrt_ok (x : R) : 0 <= x -> py_sqrt x = Ok (sqrt x).
Proof.
  intros Hx. unfold py_sqrt. destruct (Rlt_dec x 0) as [L | _]; [lra | reflexivity].
Qed.

Lemma py_sqrt_neg (x : R) : x < 0 -> py_sqrt x = Raise ValueError.
Proof.
  intros Hx. unfold py_sqrt. destruct (Rlt_dec x 0) as [_ | N]; [reflexivity | contradiction].
Qed.

Lemma py_max_Rmax (a b : R) : py_max a b = Rmax a b.
Proof.
  unfold py_max, Rmax.
  destruct (Rlt_dec a b) as [L | N], (Rle_dec a b) as [L' | N']; try reflexivity; lra.
Qed.

Lemma py_max_l (a b : R) : a <= py_max a b.
Proof. rewrite py_max_Rmax. apply Rmax_l. Qed.

Lemma py_max_r (a b : R) : b <= py_max a b.
Proof. rewrite py_max_Rmax. apply Rmax_r. Qed.

Lemma py_max_mono (a b a' b' : R) : a <= a' -> b <= b' -> py_max a b <= py_max a' b'.
Proof.
  intros Ha Hb. rewrite !py_max_Rmax. apply Rmax_lub.
  - apply Rle_trans with a'; [exact Ha | apply Rmax_l].
  - apply Rle_trans with b'; [exact Hb | apply Rmax_r].
Qed.

Lemma py_index_lookup (l : list R) (j : nat) (v : R) :
  l !! j = Some v -> py_index l j = Ok v.
Proof. intros H. unfold py_index. rewrite H. reflexivity. Qed.

Lemma py_store_lookup (l : list R) (j : nat) (v x : R) :
  l !! j = Some v -> py_store l j x = Ok (<[j := x]> l).
Proof.
  intros H. unfold py_store.
  apply lookup_lt_Some in H.
  destruct (Nat.ltb_spec j (length l)); [reflexivity | lia].
Qed.

Lemma for_each_app {A B : Type} (body : B -> A -> result B) (xs ys : list A) (acc : B) :
  for_each body (xs ++ ys) acc = (acc' <~ for_each body xs acc ;; for_each body ys acc').
Proof.
  revert acc. induction xs as [| x xs IH]; intros acc; simpl; [reflexivity |].
  destruct (body acc x) as [acc' | e]; simpl; [apply IH | reflexivity].
Qed.

Lemma range_succ (i : nat) : range (Z.of_nat i + 1) = seq 0 (Datatypes.S i).
Proof. unfold range. f_equal. lia. Qed.

Lemma range_down_succ (m : nat) :
  rev (seq 0 (Datatypes.S m)) = m :: rev (seq 0 m).
Proof. rewrite seq_S, rev_app_distr. reflexivity. Qed.

(** ** The loops compute [tree_value] *)

Section LatticeFacts.

Variables (S K r dt u d p : R) (option_type : string).

Local Abbreviation tv := (tree_value S K r dt u d p option_type).
Local Abbreviation holds := (level_holds S K r dt u d p option_type).
Local Abbreviation partial := (level_partial S K r dt u d p option_type).
Local Abbreviation upd := (node_update S K r dt u d p option_type).
Local Abbreviation lvl := (level_update S K r dt u d p option_type).

Lemma node_update_partial (k i m : nat) (vals : list R) :
  (m <= i)%nat ->
  partial k i m vals ->
  exists vals', upd i vals m = Ok vals' /\ partial k i (Datatypes.S m) vals'.
Proof.
  intros Hm [Hlo Hhi].
  assert (Hup : vals !! (m + 1)%nat = Some (tv k (i + 1)%nat (m + 1)%nat))
    by (apply Hhi; lia).
  assert (Hdn : vals !! m = Some (tv k (i + 1)%nat m)) by (apply Hhi; lia).
  unfold node_update.
  rewrite (py_index_lookup _ _ _ Hup). simpl.
  rewrite (py_index_lookup _ _ _ Hdn). simpl.
  rewrite (py_store_lookup _ _ _ _ Hdn).
  eexists. split; [reflexivity |].
  split.
  - intros j Hj. destruct (Nat.eq_dec j m) as [-> | Hne].
    + rewrite list_lookup_insert_eq by (eapply lookup_lt_Some; exact Hdn).
      reflexivity.
    + rewrite list_lookup_insert_ne by congruence. apply Hlo. lia.
  - intros j Hj. rewrite list_lookup_insert_ne by lia. apply Hhi. lia.
Qed.

Lemma inner_loop_partial (k i : nat) :
  forall (len a : nat) (vals : list R),
    (a + len = i + 1)%nat ->
    partial k i a vals ->
    exists vals', for_each (upd i) (seq a len) vals = Ok vals'
                  /\ partial k i (i + 1) vals'.
Proof.
  induction len as [| len IH]; intros a vals Hlen Hinv; simpl.
  - exists vals. split; [reflexivity |].
    replace (i + 1)%nat with a by lia. exact Hinv.
  - destruct (node_update_partial k i a vals) as (vals1 & E1 & Hinv1);
      [lia | exact Hinv |].
    rewrite E1. simpl. apply IH; [lia | exact Hinv1].
Qed.

Lemma level_update_holds (k i : nat) (vals : list R) :
  holds k (i + 1)%nat vals ->
  exists vals', lvl vals i = Ok vals' /\ holds (Datatypes.S k) i vals'.
Proof.
  intros H. unfold level_update. rewrite range_succ.
  destruct (inner_loop_partial k i (Datatypes.S i) 0 vals) as (vals' & E & Hlo & _).
  - lia.
  - split; [intros j Hj; lia | intros j Hj; apply H; lia].
  - exists vals'. split; [exact E |]. intros j Hj. apply Hlo. lia.
Qed.

Lemma outer_loop_holds :
  forall (m k : nat) (vals : list R),
    holds k m vals ->
    exists vals', for_each lvl (rev (seq 0 m)) vals = Ok vals'
                  /\ holds (k + m) 0 vals'.
Proof.
  induction m as [| m IH]; intros k vals H.
  - exists vals. split; [reflexivity |]. rewrite Nat.add_0_r. exact H.
  - rewrite range_down_succ. simpl.
    destruct (level_update_holds k m vals) as (vals1 & E1 & H1).
    { rewrite Nat.add_1_r. exact H. }
    rewrite E1. simpl.
    destruct (IH (Datatypes.S k) vals1 H1) as (vals2 & E2 & H2).
    exists vals2. split; [exact E2 |].
    replace (k + Datatypes.S m)%nat with (Datatypes.S k + m)%nat by lia. exact H2.
Qed.

Lemma terminal_values_holds (n : Z) :
  (0 <= n)%Z ->
  holds 0 (Z.to_nat n) (terminal_values S K u d n option_type).
Proof.
  intros Hn j Hj. unfold terminal_values, terminal_prices, range.
  rewrite !list_lookup_fmap.
  rewrite lookup_seq_lt by lia. simpl.
  unfold stock_at. do 4 f_equal. lia.
Qed.

(** The backward pass followed by the final read of entry 0. *)
Lemma backward_pass_value (n : Z) :
  (0 <= n)%Z ->
  (vals <~ for_each lvl (range_down n) (terminal_values S K u d n option_type) ;;
   py_index vals 0)
  = Ok (tv (Z.to_nat n) 0%nat 0%nat).
Proof.
  intros Hn. unfold range_down.
  destruct (outer_loop_holds (Z.to_nat n) 0 _ (terminal_values_holds n Hn))
    as (vals & E & H).
  rewrite E. simpl. apply py_index_lookup. apply H. lia.
Qed.

End LatticeFacts.

(** ** When [binomial_tree] returns and when it raises *)

Lemma step_dt_pos (T : R) (n : Z) : (1 <= n)%Z -> 0 < T -> 0 < step_dt T n.
Proof.
  intros Hn HT. unfold step_dt. apply Rdiv_lt_0_compat; [exact HT |].
  apply IZR_lt. lia.
Qed.

Lemma up_factor_pos (T sigma : R) (n : Z) : 0 < up_factor T sigma n.
Proof. apply exp_pos. Qed.

Lemma exp_eq_1 (x : R) : exp x = 1 -> x = 0.
Proof. intros H. apply exp_inv. rewrite exp_0. exact H. Qed.

(** The lattice is degenerate ([u = d]) exactly when [sigma * sqrt dt = 0]. *)
Lemma up_minus_down_zero (x : R) : exp x - 1 / exp x = 0 <-> x = 0.
Proof.
  pose proof (exp_pos x) as Hp.
  split.
  - intros H. apply exp_eq_1.
    assert (E : exp x * exp x = 1).
    { apply Rminus_diag_uniq in H. rewrite H at 1. field. lra. }
    nra.
  - intros ->. rewrite exp_0. lra.
Qed.

Lemma up_neq_down (T sigma : R) (n : Z) :
  (1 <= n)%Z -> 0 < T -> sigma <> 0 ->
  up_factor T sigma n - down_factor T sigma n <> 0.
Proof.
  intros Hn HT Hs. unfold down_factor, up_factor.
  rewrite up_minus_down_zero.
  pose proof (sqrt_lt_R0 _ (step_dt_pos T n Hn HT)) as Hq.
  intros E. apply Rmult_integral in E. lra.
Qed.

(** On valid step counts, positive expiry and non-zero volatility none of
    the divisions and no square root raises: the pricer is its backward
    pass on the lattice parameters. *)
Lemma binomial_tree_unfold (S K T r sigma : R) (n : Z) (option_type : string) :
  (1 <= n)%Z -> 0 < T -> sigma <> 0 ->
  binomial_tree S K T r sigma n option_type
  = (vals <~ for_each (level_update S K r (step_dt T n) (up_factor T sigma n)
                                    (down_factor T sigma n) (up_prob T r sigma n)
                                    option_type)
                      (range_down n)
                      (terminal_values S K (up_factor T sigma n)
                                       (down_factor T sigma n) n option_type) ;;
     py_index vals 0).
Proof.
  intros Hn HT Hs. unfold binomial_tree.
  assert (Hnz : IZR n <> 0) by (apply not_0_IZR; lia).
  rewrite (py_div_ok _ _ Hnz). simpl.
  pose proof (step_dt_pos T n Hn HT) as Hdt. fold (step_dt T n).
  rewrite py_sqrt_ok by lra. simpl.
  fold (up_factor T sigma n).
  rewrite py_div_ok by (pose proof (up_factor_pos T sigma n); lra). simpl.
  fold (down_factor T sigma n).
  rewrite (py_div_ok _ _ (up_neq_down T sigma n Hn HT Hs)). simpl.
  reflexivity.
Qed.

(** There the pricer returns the closed-form root value. *)
Lemma binomial_tree_value (S K T r sigma : R) (n : Z) (option_type : string) :
  (1 <= n)%Z -> 0 < T -> sigma <> 0 ->
  binomial_tree S K T r sigma n option_type
  = Ok (root_value S K T r sigma n option_type).
Proof.
  intros Hn HT Hs. rewrite binomial_tree_unfold by assumption.
  apply backward_pass_value. lia.
Qed.

Lemma binomial_tree_raises (S K T r sigma : R) (n : Z) (option_type : string) :
  (n < 1)%Z \/ T <= 0 \/ sigma = 0 ->
  is_error (binomial_tree S K T r sigma n option_type).
Proof.
  intros H. unfold binomial_tree, is_error.
  destruct (Z.eq_dec n 0%Z) as [-> | Hn0].
  { rewrite py_div_zero. simpl. eauto. }
  assert (Hnz : IZR n <> 0) by (apply not_0_IZR; exact Hn0).
  rewrite (py_div_ok _ _ Hnz). simpl.
  destruct (Rlt_dec (T / IZR n) 0) as [Hneg | Hnn].
  { rewrite (py_sqrt_neg _ Hneg). simpl. eauto. }
  rewrite py_sqrt_ok by lra. simpl.
  rewrite py_div_ok by (pose proof (exp_pos (sigma * sqrt (T / IZR n))); lra). simpl.
  destruct (Req_dec_T (sigma * sqrt (T / IZR n)) 0) as [Hz | Hnzs].
  { apply up_minus_down_zero in Hz. unfold py_div at 1.
    destruct (Req_dec_T _ 0) as [_ | N]; [| contradiction]. simpl. eauto. }
  rewrite py_div_ok by (rewrite up_minus_down_zero; exact Hnzs). simpl.
  (* the lattice is not degenerate: sigma <> 0 and dt > 0, so n < 0 and T < 0 *)
  assert (Hs : sigma <> 0) by (intros ->; apply Hnzs; ring).
  assert (Hdt : T / IZR n <> 0).
  { intros E. apply Hnzs. rewrite E, sqrt_0. ring. }
  assert (HT : T <> 0).
  { intros ->. apply Hdt. unfold Rdiv. ring. }
  assert (Hneg : (n < 0)%Z).
  { destruct (Z_lt_ge_dec n 0%Z) as [L | G]; [exact L | exfalso].
    assert (Hn1 : (1 <= n)%Z) by lia.
    destruct H as [H | [H | H]]; [lia | | contradiction].
    assert (T < 0) by lra.
    apply Hnn. unfold Rdiv.
    assert (0 < / IZR n) by (apply Rinv_0_lt_compat, IZR_lt; lia).
    nra. }
  unfold terminal_values, terminal_prices, range, range_down.
  replace (Z.to_nat (n + 1)) with 0%nat by lia.
  replace (Z.to_nat n) with 0%nat by lia.
  simpl. eauto.
Qed.

Lemma ok_not_error {A : Type} (m : result A) : is_ok m -> ~ is_error m.
Proof. intros [a ->] [e E]. discriminate. Qed.

Lemma binomial_tree_ok_iff (S K T r sigma : R) (n : Z) (option_type : string) :
  is_ok (binomial_tree S K T r sigma n option_type)
  <-> (1 <= n)%Z /\ 0 < T /\ sigma <> 0.
Proof.
  split.
  - intros Hok.
    destruct (Z_lt_ge_dec n 1%Z) as [L | G];
      [exfalso; eapply ok_not_error; [exact Hok | apply binomial_tree_raises; auto] |].
    destruct (Rle_dec T 0) as [L | G'];
      [exfalso; eapply ok_not_error; [exact Hok | apply binomial_tree_raises; auto] |].
    destruct (Req_dec_T sigma 0) as [E | N];
      [exfalso; eapply ok_not_error; [exact Hok | apply binomial_tree_raises; auto] |].
    repeat split; [lia | lra | exact N].
  - intros (Hn & HT & Hs). eexists. apply binomial_tree_value; assumption.
Qed.

(** ** The pricer against the backward induction of the specification *)

Lemma spec_dt_eq (T : R) (n : Z) : (0 <= n)%Z -> Spec.dt T (Z.to_nat n) = step_dt T n.
Proof.
  intros Hn. unfold Spec.dt, step_dt. rewrite INR_IZR_INZ, Z2Nat.id by exact Hn.
  reflexivity.
Qed.

Lemma spec_u_eq (T sigma : R) (n : Z) :
  (0 <= n)%Z -> Spec.u T sigma (Z.to_nat n) = up_factor T sigma n.
Proof. intros Hn. unfold Spec.u, up_factor. rewrite spec_dt_eq by exact Hn. reflexivity. Qed.

Lemma spec_d_eq (T sigma : R) (n : Z) :
  (0 <= n)%Z -> Spec.d T sigma (Z.to_nat n) = down_factor T sigma n.
Proof. intros Hn. unfold Spec.d, down_factor. rewrite spec_u_eq by exact Hn. reflexivity. Qed.

Lemma spec_p_eq (T r sigma : R) (n : Z) :
  (0 <= n)%Z -> Spec.p T r sigma (Z.to_nat n) = up_prob T r sigma n.
Proof.
  intros Hn. unfold Spec.p, up_prob.
  rewrite spec_dt_eq, spec_u_eq, spec_d_eq by exact Hn. reflexivity.
Qed.

Lemma spec_payoff_nonneg (K : R) (v : Spec.variant) (x : R) : 0 <= Spec.payoff K v x.
Proof. destruct v; simpl; apply Rmax_r. Qed.

Lemma spec_payoff_exercise (K : R) (option_type : string) (x : R) :
  Spec.payoff K (variant_of option_type) x = Rmax (exercise option_type K x) 0.
Proof. unfold variant_of, exercise. destruct (is_call option_type); reflexivity. Qed.

(** With a non-negative continuation value, flooring the exercise value at
    zero does not change the maximum. *)
Lemma Rmax_floor (c x : R) : 0 <= c -> Rmax c (Rmax x 0) = Rmax c x.
Proof.
  intros Hc. unfold Rmax.
  destruct (Rle_dec x 0) as [Hx | Hx].
  - destruct (Rle_dec c 0), (Rle_dec c x); lra.
  - reflexivity.
Qed.

Lemma tree_value_spec_V (S K T r sigma : R) (n : Z) (option_type : string) :
  (0 <= n)%Z ->
  0 <= up_prob T r sigma n <= 1 ->
  forall k i j : nat,
    tree_value S K r (step_dt T n) (up_factor T sigma n) (down_factor T sigma n)
               (up_prob T r sigma n) option_type k i j
    = Spec.V S K T r sigma (Z.to_nat n) (variant_of option_type) k i j.
Proof.
  intros Hn Hp.
  induction k as [| k IH]; intros i j; simpl.
  - unfold terminal_value, stock_at, Spec.price_at.
    rewrite py_max_Rmax, spec_payoff_exercise, spec_u_eq, spec_d_eq by exact Hn.
    reflexivity.
  - rewrite py_max_Rmax, !IH.
    unfold stock_at, Spec.price_at.
    rewrite spec_payoff_exercise, spec_u_eq, spec_d_eq, spec_dt_eq, spec_p_eq by exact Hn.
    rewrite Rmax_floor; [reflexivity |].
    set (a := Spec.V _ _ _ _ _ _ _ k (i + 1)%nat (j + 1)%nat).
    set (b := Spec.V _ _ _ _ _ _ _ k (i + 1)%nat j).
    assert (Ha : 0 <= a).
    { subst a. destruct k; simpl; [apply spec_payoff_nonneg |].
      eapply Rle_trans; [apply spec_payoff_nonneg | apply Rmax_r]. }
    assert (Hb : 0 <= b).
    { subst b. destruct k; simpl; [apply spec_payoff_nonneg |].
      eapply Rle_trans; [apply spec_payoff_nonneg | apply Rmax_r]. }
    pose proof (exp_pos (- r * step_dt T n)) as He.
    apply Rmult_le_pos; [lra |].
    apply Rplus_le_le_0_compat; apply Rmult_le_pos; lra.
Qed.


(** The risk-neutral probability lies in [0, 1] as soon as the drift of one
    step is dominated by the volatility of one step. *)
Lemma up_prob_bounds (T r sigma : R) (n : Z) :
  (1 <= n)%Z -> 0 < T -> 0 < sigma ->
  - (sigma * sqrt (step_dt T n)) <= r * step_dt T n <= sigma * sqrt (step_dt T n) ->
  0 <= up_prob T r sigma n <= 1.
Proof.
  intros Hn HT Hs [Hlo Hhi].
  unfold up_prob, down_factor, up_factor.
  set (x := sigma * sqrt (step_dt T n)) in *.
  set (y := r * step_dt T n) in *.
  assert (Hx : 0 < x).
  { subst x. apply Rmult_lt_0_compat; [exact Hs |].
    apply sqrt_lt_R0, step_dt_pos; assumption. }
  assert (Hd : 1 / exp x = exp (- x)) by (rewrite exp_Ropp; unfold Rdiv; ring).
  rewrite Hd.
  assert (Hlt : exp (- x) < exp x) by (apply exp_increasing; lra).
  assert (H1 : exp (- x) <= exp y).
  { destruct Hlo as [L | E]; [left; apply exp_increasing; exact L | rewrite E; right; reflexivity]. }
  assert (H2 : exp y <= exp x).
  { destruct Hhi as [L | E]; [left; apply exp_increasing; exact L | rewrite E; right; reflexivity]. }
  split.
  - apply Rmult_le_pos; [lra |]. left. apply Rinv_0_lt_compat. lra.
  - apply Rmult_le_reg_r with (exp x - exp (- x)); [lra |].
    unfold Rdiv. rewrite Rmult_assoc, Rinv_l by lra. lra.
Qed.

Lemma sqrt_hundredth : sqrt (1 / 100) = 1 / 10.
Proof. apply sqrt_lem_1; lra. Qed.

(** The scenario of the specification: T = 1, r = 0.05, sigma = 0.2,
    n = 100. *)
Lemma up_prob_scenario : 0 <= up_prob 1 0.05 0.2 100 <= 1.
Proof.
  apply up_prob_bounds; [lia | lra | lra |].
  unfold step_dt. rewrite sqrt_hundredth. lra.
Qed.


(** ** Non-negativity of the working list *)

Lemma for_each_invariant {A B : Type} (P : B -> Prop) (body : B -> A -> result B) :
  (forall acc x acc', P acc -> body acc x = Ok acc' -> P acc') ->
  forall (xs : list A) (acc r : B),
    P acc -> for_each body xs acc = Ok r -> P r.
Proof.
  intros Hstep. induction xs as [| x xs IH]; intros acc r HP E; simpl in E.
  - injection E as <-. exact HP.
  - destruct (body acc x) as [acc' |] eqn:Eb; simpl in E; [| discriminate].
    apply (IH acc'); [eapply Hstep; eassumption | exact E].
Qed.

Lemma for_each_prefix_ok {A B : Type} (body : B -> A -> result B)
  (xs ys : list A) (acc r : B) :
  for_each body (xs ++ ys) acc = Ok r -> is_ok (for_each body xs acc).
Proof.
  rewrite for_each_app. destruct (for_each body xs acc) as [r' | e]; simpl.
  - intros _. exists r'. reflexivity.
  - discriminate.
Qed.

(** The nested loops visit the nodes in the order of the flat schedule. *)
Lemma for_each_nested {A B C : Type} (body : A -> C -> B -> result C)
  (inner : A -> list B) :
  forall (outer : list A) (acc : C),
    for_each (fun acc' ij => body ij.1 acc' ij.2)
             (flat_map (fun i => map (fun j => (i, j)) (inner i)) outer) acc
    = for_each (fun acc' i => for_each (body i) (inner i) acc') outer acc.
Proof.
  induction outer as [| i outer IH]; intros acc; simpl; [reflexivity |].
  rewrite for_each_app.
  assert (E : for_each (fun acc' ij => body ij.1 acc' ij.2)
                       (map (fun j => (i, j)) (inner i)) acc
              = for_each (body i) (inner i) acc).
  { clear IH. generalize acc. induction (inner i) as [| j js IHj]; intros a; simpl.
    - reflexivity.
    - destruct (body i a j); simpl; [apply IHj | reflexivity]. }
  rewrite E. destruct (for_each (body i) (inner i) acc); simpl; [apply IH | reflexivity].
Qed.

Lemma py_max_nonneg_l (a b : R) : 0 <= a -> 0 <= py_max a b.
Proof. intros H. eapply Rle_trans; [exact H | apply py_max_l]. Qed.

Lemma terminal_values_nonneg (S K u d : R) (n : Z) (option_type : string) :
  Forall (fun x => 0 <= x) (terminal_values S K u d n option_type).
Proof.
  unfold terminal_values. apply List.Forall_forall. intros x Hx.
  apply List.in_map_iff in Hx. destruct Hx as (y & <- & _).
  unfold terminal_value. apply py_max_r.
Qed.

Lemma node_update_nonneg (S K r dt u d p : R) (option_type : string)
  (i j : nat) (vals vals' : list R) :
  0 <= p <= 1 ->
  Forall (fun x => 0 <= x) vals ->
  node_update S K r dt u d p option_type i vals j = Ok vals' ->
  Forall (fun x => 0 <= x) vals'.
Proof.
  intros Hp Hall. unfold node_update, py_index, py_store.
  destruct (vals !! (j + 1)%nat) as [v1 |] eqn:E1; simpl; [| discriminate].
  destruct (vals !! j) as [v0 |] eqn:E0; simpl; [| discriminate].
  destruct (j <? length vals)%nat; [| discriminate].
  intros E. injection E as <-.
  apply Forall_insert; [exact Hall |].
  apply py_max_nonneg_l.
  assert (H1 : 0 <= v1) by (eapply (Forall_lookup_1 _ _ _ _ Hall); exact E1).
  assert (H0 : 0 <= v0) by (eapply (Forall_lookup_1 _ _ _ _ Hall); exact E0).
  pose proof (exp_pos (- r * dt)) as He.
  apply Rmult_le_pos; [lra |].
  apply Rplus_le_le_0_compat; apply Rmult_le_pos; lra.
Qed.

Lemma binomial_tree_held (S K T r sigma : R) (n : Z) (option_type : string) :
  (1 <= n)%Z -> 0 < T -> sigma <> 0 ->
  binomial_tree S K T r sigma n option_type
  = (vals <~ held_values S K T r sigma n option_type (length (schedule n)) ;;
     py_index vals 0).
Proof.
  intros Hn HT Hs. rewrite binomial_tree_unfold by assumption.
  unfold held_values. rewrite firstn_all.
  unfold schedule. rewrite for_each_nested. reflexivity.
Qed.

Lemma held_values_ok (S K T r sigma : R) (n : Z) (option_type : string) (steps : nat) :
  (1 <= n)%Z -> 0 < T -> sigma <> 0 ->
  is_ok (held_values S K T r sigma n option_type steps).
Proof.
  intros Hn HT Hs.
  pose proof (binomial_tree_value S K T r sigma n option_type Hn HT Hs) as E.
  rewrite binomial_tree_held in E by assumption.
  destruct (held_values S K T r sigma n option_type (length (schedule n)))
    as [vals |] eqn:Ef; simpl in E; [clear E | discriminate].
  unfold held_values in *. rewrite firstn_all in Ef.
  rewrite <- (take_drop steps (schedule n)) in Ef at 1.
  eapply for_each_prefix_ok. exact Ef.
Qed.



(** ** The early-exercise floor at the root *)

Lemma is_call_true (option_type : string) :
  is_call option_type = true <-> option_type = "call"%string.
Proof. unfold is_call. apply String.eqb_eq. Qed.

Lemma is_call_false (option_type : string) :
  is_call option_type = false <-> option_type <> "call"%string.
Proof. unfold is_call. apply String.eqb_neq. Qed.

Lemma root_value_floor (S K T r sigma : R) (n : Z) (option_type : string) :
  (1 <= n)%Z ->
  exercise option_type K S <= root_value S K T r sigma n option_type.
Proof.
  intros Hn. unfold root_value.
  destruct (Z.to_nat n) as [| m] eqn:E; [lia |].
  simpl. unfold stock_at. simpl.
  replace (S * 1 * 1) with S by ring.
  apply py_max_r.
Qed.



(** ** Monotonicity in the spot price *)

Section Monotone.

Variables (K r dt u d p : R).
Hypothesis Hu : 0 < u.
Hypothesis Hd : 0 < d.
Hypothesis Hp : 0 <= p <= 1.

Lemma stock_at_mono (S1 S2 : R) (i j : nat) :
  S1 <= S2 -> stock_at S1 u d i j <= stock_at S2 u d i j.
Proof.
  intros H. unfold stock_at.
  pose proof (pow_lt u j Hu). pose proof (pow_lt d (i - j) Hd).
  rewrite !Rmult_assoc. apply Rmult_le_compat_r; [| exact H].
  left. apply Rmult_lt_0_compat; assumption.
Qed.

Lemma continuation_mono (a1 a2 b1 b2 : R) :
  a1 <= a2 -> b1 <= b2 ->
  exp (- r * dt) * (p * a1 + (1 - p) * b1) <= exp (- r * dt) * (p * a2 + (1 - p) * b2).
Proof.
  intros Ha Hb. pose proof (exp_pos (- r * dt)) as He.
  apply Rmult_le_compat_l; [lra |].
  apply Rplus_le_compat; apply Rmult_le_compat_l; lra.
Qed.

Lemma tree_value_call_mono (S1 S2 : R) :
  S1 <= S2 ->
  forall k i j : nat,
    tree_value S1 K r dt u d p "call" k i j <= tree_value S2 K r dt u d p "call" k i j.
Proof.
  intros H. induction k as [| k IH]; intros i j; simpl.
  - unfold terminal_value. apply py_max_mono; [| lra].
    unfold exercise. simpl. pose proof (stock_at_mono S1 S2 i j H). lra.
  - apply py_max_mono.
    + apply continuation_mono; apply IH.
    + unfold exercise. simpl. pose proof (stock_at_mono S1 S2 i j H). lra.
Qed.

Lemma tree_value_put_mono (S1 S2 : R) (option_type : string) :
  is_call option_type = false ->
  S1 <= S2 ->
  forall k i j : nat,
    tree_value S2 K r dt u d p option_type k i j
    <= tree_value S1 K r dt u d p option_type k i j.
Proof.
  intros Hty H. induction k as [| k IH]; intros i j; simpl.
  - unfold terminal_value. apply py_max_mono; [| lra].
    unfold exercise. rewrite Hty. pose proof (stock_at_mono S1 S2 i j H). lra.
  - apply py_max_mono.
    + apply continuation_mono; apply IH.
    + unfold exercise. rewrite Hty. pose proof (stock_at_mono S1 S2 i j H). lra.
Qed.

End Monotone.

Lemma down_factor_pos (T sigma : R) (n : Z) : 0 < down_factor T sigma n.
Proof.
  unfold down_factor. pose proof (up_factor_pos T sigma n).
  apply Rdiv_lt_0_compat; lra.
Qed.



(** ** A one-step lattice with a risk-neutral probability above 1 *)

(** The one-step price, computed by hand. *)
Lemma root_value_one_step (S K T r sigma : R) (option_type : string) :
  root_value S K T r sigma 1 option_type
  = py_max (exp (- r * step_dt T 1)
            * (up_prob T r sigma 1
               * py_max (exercise option_type K (S * up_factor T sigma 1)) 0
               + (1 - up_prob T r sigma 1)
                 * py_max (exercise option_type K (S * down_factor T sigma 1)) 0))
           (exercise option_type K S).
Proof.
  unfold root_value. change (Z.to_nat 1) with 1%nat.
  cbn [tree_value]. unfold terminal_value, stock_at.
  cbn [Nat.add Nat.sub pow].
  replace (S * (up_factor T sigma 1 * 1) * 1) with (S * up_factor T sigma 1) by ring.
  replace (S * 1 * (down_factor T sigma 1 * 1)) with (S * down_factor T sigma 1) by ring.
  replace (S * 1 * 1) with S by ring.
  reflexivity.
Qed.

Lemma exp_1_gt_2 : 2 < exp 1.
Proof. pose proof (exp_ineq1 1). lra. Qed.

Lemma step_dt_1_1 : step_dt 1 1 = 1.
Proof. unfold step_dt. lra. Qed.

Lemma up_factor_1_1_1 : up_factor 1 1 1 = exp 1.
Proof. unfold up_factor. rewrite step_dt_1_1, sqrt_1. f_equal; lra. Qed.

Lemma down_factor_1_1_1 : down_factor 1 1 1 = / exp 1.
Proof. unfold down_factor. rewrite up_factor_1_1_1. unfold Rdiv. ring. Qed.

Lemma exp_2 : exp 2 = exp 1 * exp 1.
Proof. rewrite <- exp_plus. f_equal; lra. Qed.

(** With T = 1, r = 2, sigma = 1, n = 1: the discounted weight of the
    down-node, exp(-r dt) (1 - p), is -1 / (e + 1). *)
Lemma discounted_down_weight :
  exp (- (2) * step_dt 1 1) * (1 - up_prob 1 2 1 1) = - / (exp 1 + 1).
Proof.
  unfold up_prob. rewrite up_factor_1_1_1, down_factor_1_1_1, step_dt_1_1.
  replace (- (2) * 1) with (- (2)) by ring. rewrite exp_Ropp.
  replace (2 * 1) with 2 by ring. rewrite exp_2.
  pose proof exp_1_gt_2 as He.
  field. repeat split; nra.
Qed.

Lemma py_max_eq_l (a b : R) : b <= a -> py_max a b = a.
Proof. intros H. unfold py_max. destruct (Rlt_dec a b); [lra | reflexivity]. Qed.

Lemma py_max_eq_r (a b : R) : a < b -> py_max a b = b.
Proof. intros H. unfold py_max. destruct (Rlt_dec a b); [reflexivity | lra]. Qed.

(** The one-step put with K = 1, T = 1, r = 2, sigma = 1, for a spot
    between 1 and 2: the up-node is out of the money, the down-node is in
    the money and carries a negative weight. *)
Lemma one_step_put_value (S : R) :
  1 <= S <= 2 ->
  root_value S 1 1 2 1 1 "put"
  = py_max (- / (exp 1 + 1) * (1 - S * / exp 1)) (1 - S).
Proof.
  intros HS. rewrite root_value_one_step.
  pose proof exp_1_gt_2 as He.
  assert (Hinv : 0 < / exp 1 < / 2).
  { split; [apply Rinv_0_lt_compat; lra | apply Rinv_lt_contravar; nra]. }
  unfold exercise. change (is_call "put") with false. cbv iota.
  rewrite up_factor_1_1_1, down_factor_1_1_1.
  rewrite (py_max_eq_r (1 - S * exp 1) 0) by nra.
  rewrite (py_max_eq_l (1 - S * / exp 1) 0) by nra.
  replace (exp (- (2) * step_dt 1 1)
           * (up_prob 1 2 1 1 * 0 + (1 - up_prob 1 2 1 1) * (1 - S * / exp 1)))
    with (exp (- (2) * step_dt 1 1) * (1 - up_prob 1 2 1 1) * (1 - S * / exp 1))
    by ring.
  rewrite discounted_down_weight. reflexivity.
Qed.


(** ** When the pricer raises *)


Lemma result_ok_or_error {A : Type} (m : result A) : is_ok m \/ is_error m.
Proof. destruct m as [a | e]; [left; exists a | right; exists e]; reflexivity. Qed.



(** ** Inversion of the traced computation *)

Lemma tbind_inv {A B : Type} (m : traced A) (k : A -> traced B)
  (log log2 : list pricer_call) (b : B) :
  tbind m k log = (Ok b, log2) ->
  exists (a : A) (log1 : list pricer_call),
    m log = (Ok a, log1) /\ k a log1 = (Ok b, log2).
Proof.
  unfold tbind. destruct (m log) as [[a | e] log1]; intros H.
  - exists a, log1. split; [reflexivity | exact H].
  - discriminate.
Qed.

Lemma tbind_ok {A B : Type} (m : traced A) (k : A -> traced B)
  (log log1 : list pricer_call) (a : A) :
  m log = (Ok a, log1) -> tbind m k log = k a log1.
Proof. intros H. unfold tbind. rewrite H. reflexivity. Qed.

Lemma tbind_raise {A B : Type} (m : traced A) (k : A -> traced B)
  (log log1 : list pricer_call) (e : exn) :
  m log = (Raise e, log1) -> tbind m k log = (Raise e, log1).
Proof. intros H. unfold tbind. rewrite H. reflexivity. Qed.

Lemma call_binomial_tree_inv (S K T r sigma : R) (n : Z) (option_type : string)
  (log log1 : list pricer_call) (v : R) :
  call_binomial_tree S K T r sigma n option_type log = (Ok v, log1) ->
  binomial_tree S K T r sigma n option_type = Ok v
  /\ log1 = log ++ [PricerCall S K T r sigma n option_type].
Proof. unfold call_binomial_tree. intros H. injection H as H1 H2. auto. Qed.

Lemma call_binomial_tree_ok (S K T r sigma : R) (n : Z) (option_type : string)
  (log : list pricer_call) (v : R) :
  binomial_tree S K T r sigma n option_type = Ok v ->
  call_binomial_tree S K T r sigma n option_type log
  = (Ok v, log ++ [PricerCall S K T r sigma n option_type]).
Proof. intros H. unfold call_binomial_tree. rewrite H. reflexivity. Qed.

Lemma pure_div_inv (x y : R) (log log1 : list pricer_call) (q : R) :
  pure_step (py_div x y) log = (Ok q, log1) ->
  y <> 0 /\ q = x / y /\ log1 = log.
Proof.
  unfold pure_step, py_div. destruct (Req_dec_T y 0) as [E | N]; intros H.
  - discriminate.
  - injection H as H1 H2. auto.
Qed.

Lemma pure_div_ok (x y : R) (log : list pricer_call) :
  y <> 0 -> pure_step (py_div x y) log = (Ok (x / y), log).
Proof. intros H. unfold pure_step. rewrite py_div_ok by exact H. reflexivity. Qed.

Ltac invert_traced H :=
  repeat (cbv beta in H;
          lazymatch type of H with
          | tbind (call_binomial_tree _ _ _ _ _ _ _) _ _ = (Ok _, _) =>
              let v := fresh "V" in
              let log1 := fresh "log" in
              let Hc := fresh "Hcall" in
              let E := fresh "Eprice" in
              apply tbind_inv in H; destruct H as (v & log1 & Hc & H);
              apply call_binomial_tree_inv in Hc; destruct Hc as [E ->]
          | tbind (pure_step (py_div _ _)) _ _ = (Ok _, _) =>
              let q := fresh "q" in
              let log1 := fresh "log" in
              let Hd := fresh "Hdiv" in
              let N := fresh "Hnz" in
              apply tbind_inv in H; destruct H as (q & log1 & Hd & H);
              apply pure_div_inv in Hd; destruct Hd as (N & -> & ->)
          end).

Ltac run_call E :=
  rewrite (tbind_ok _ _ _ _ _ (call_binomial_tree_ok _ _ _ _ _ _ _ _ _ E)).

Ltac run_div :=
  erewrite tbind_ok by (apply pure_div_ok; lra).

Section Greeks.

Variables (S K T r sigma : R) (n : Z) (option_type : string).

Local Abbreviation price_at S' T' r' sigma' :=
  (binomial_tree S' K T' r' sigma' n option_type).

(** A run that returns has made the ten calls of [greeks_calls], each of
    them returned, the spot is not zero, and the five results are the
    quotients of the ten prices. *)
Lemma calculate_greeks_traced_inv (g : R * R * R * R * R) (log : list pricer_call) :
  calculate_greeks_traced S K T r sigma n option_type [] = (Ok g, log) ->
  exists V_up V_down V_up_up V_down_down V_vol_up V_vol_down
         V_current V_T_down V_r_up V_r_down : R,
    price_at (S * 1.01) T r sigma = Ok V_up
    /\ price_at (S * 0.99) T r sigma = Ok V_down
    /\ price_at (S * 1.01 * 1.01) T r sigma = Ok V_up_up
    /\ price_at (S * 0.99 * 0.99) T r sigma = Ok V_down_down
    /\ price_at S T r (sigma + 0.01) = Ok V_vol_up
    /\ price_at S T r (sigma - 0.01) = Ok V_vol_down
    /\ price_at S T r sigma = Ok V_current
    /\ price_at S (T - 1 / 365) r sigma = Ok V_T_down
    /\ price_at S T (r + 0.01) sigma = Ok V_r_up
    /\ price_at S T (r - 0.01) sigma = Ok V_r_down
    /\ S <> 0
    /\ g = greeks_quotients S V_up V_down V_up_up V_down_down V_vol_up
                            V_vol_down V_current V_T_down V_r_up V_r_down
    /\ log = greeks_calls S K T r sigma n option_type.
Proof.
  intros H. unfold calculate_greeks_traced in H. cbv zeta in H.
  invert_traced H.
  cbv beta in H. unfold tret in H. injection H as <- <-.
  exists V, V0, V1, V2, V3, V4, V5, V6, V7, V8.
  repeat (split; [assumption |]).
  split; [intros ->; apply Hnz; ring |].
  split; reflexivity.
Qed.

(** Conversely, when the spot is not zero and the ten calls return, the
    run returns. *)
Lemma calculate_greeks_traced_ok
  (V_up V_down V_up_up V_down_down V_vol_up V_vol_down
   V_current V_T_down V_r_up V_r_down : R) :
  price_at (S * 1.01) T r sigma = Ok V_up ->
  price_at (S * 0.99) T r sigma = Ok V_down ->
  price_at (S * 1.01 * 1.01) T r sigma = Ok V_up_up ->
  price_at (S * 0.99 * 0.99) T r sigma = Ok V_down_down ->
  price_at S T r (sigma + 0.01) = Ok V_vol_up ->
  price_at S T r (sigma - 0.01) = Ok V_vol_down ->
  price_at S T r sigma = Ok V_current ->
  price_at S (T - 1 / 365) r sigma = Ok V_T_down ->
  price_at S T (r + 0.01) sigma = Ok V_r_up ->
  price_at S T (r - 0.01) sigma = Ok V_r_down ->
  S <> 0 ->
  calculate_greeks_traced S K T r sigma n option_type []
  = (Ok (greeks_quotients S V_up V_down V_up_up V_down_down V_vol_up
                          V_vol_down V_current V_T_down V_r_up V_r_down),
     greeks_calls S K T r sigma n option_type).
Proof.
  intros E1 E2 E3 E4 E5 E6 E7 E8 E9 E10 HS.
  unfold calculate_greeks_traced. cbv zeta.
  run_call E1.
  run_call E2.
  run_div.
  run_call E3.
  run_div.
  run_call E4.
  run_div.
  run_div.
  run_call E5.
  run_call E6.
  run_div.
  run_div.
  run_div.
  run_call E7.
  run_call E8.
  run_div.
  run_div.
  run_call E9.
  run_call E10.
  run_div.
  run_div.
  reflexivity.
Qed.

End Greeks.

Lemma calculate_greeks_inv (S K T r sigma : R) (n : Z) (option_type : string)
  (g : R * R * R * R * R) :
  calculate_greeks S K T r sigma n option_type = Ok g ->
  calculate_greeks_traced S K T r sigma n option_type []
  = (Ok g, pricer_calls S K T r sigma n option_type).
Proof.
  unfold calculate_greeks, pricer_calls.
  destruct (calculate_greeks_traced S K T r sigma n option_type []) as [res log].
  simpl. intros ->. reflexivity.
Qed.

(** [calculate_greeks] returns exactly on these inputs. *)
Lemma calculate_greeks_ok_iff (S K T r sigma : R) (n : Z) (option_type : string) :
  is_ok (calculate_greeks S K T r sigma n option_type)
  <-> ((1 <= n)%Z /\ 1 / 365 < T /\ S <> 0
       /\ sigma <> 0 /\ sigma <> 0.01 /\ sigma <> - 0.01).
Proof.
  split.
  - intros [g Hg]. apply calculate_greeks_inv in Hg.
    apply calculate_greeks_traced_inv in Hg.
    destruct Hg as (V1 & V2 & V3 & V4 & V5 & V6 & V7 & V8 & V9 & V10
                    & _ & _ & _ & _ & E5 & E6 & E7 & E8 & _ & _ & HS & _ & _).
    assert (H5 : is_ok (binomial_tree S K T r (sigma + 0.01) n option_type))
      by (eexists; exact E5).
    assert (H6 : is_ok (binomial_tree S K T r (sigma - 0.01) n option_type))
      by (eexists; exact E6).
    assert (H7 : is_ok (binomial_tree S K T r sigma n option_type))
      by (eexists; exact E7).
    assert (H8 : is_ok (binomial_tree S K (T - 1 / 365) r sigma n option_type))
      by (eexists; exact E8).
    apply binomial_tree_ok_iff in H5, H6, H7, H8.
    destruct H5 as (_ & _ & H5), H6 as (_ & _ & H6), H7 as (Hn & _ & H7),
             H8 as (_ & H8 & _).
    repeat split; try assumption; lra.
  - intros (Hn & HT & HS & Hs & Hs1 & Hs2).
    eexists. unfold calculate_greeks.
    erewrite calculate_greeks_traced_ok;
      [reflexivity | try (apply binomial_tree_value; first [exact Hn | lra]) .. ].
    exact HS.
Qed.

(** The scenario of the specification is one of them. *)
Lemma calculate_greeks_scenario_ok :
  is_ok (calculate_greeks 100 100 1 0.05 0.2 100 "call").
Proof. apply calculate_greeks_ok_iff. repeat split; try lia; lra. Qed.

(** ** The pricer calls of one Greeks request *)

Lemma perturbed_greeks_calls (S K T r sigma : R) (n : Z) (option_type : string) :
  S <> 0 ->
  perturbed_calls (PricerCall S K T r sigma n option_type)
                  (greeks_calls S K T r sigma n option_type)
  = [ PricerCall (S * 1.01) K T r sigma n option_type;
      PricerCall (S * 0.99) K T r sigma n option_type;
      PricerCall (S * 1.01 * 1.01) K T r sigma n option_type;
      PricerCall (S * 0.99 * 0.99) K T r sigma n option_type;
      PricerCall S K T r (sigma + 0.01) n option_type;
      PricerCall S K T r (sigma - 0.01) n option_type;
      PricerCall S K (T - 1 / 365) r sigma n option_type;
      PricerCall S K T (r + 0.01) sigma n option_type;
      PricerCall S K T (r - 0.01) sigma n option_type ].
Proof.
  intros HS. unfold perturbed_calls, greeks_calls.
  repeat first
    [ rewrite filter_cons_True by (intros [=]; lra)
    | rewrite filter_cons_False by (intros H; apply H; reflexivity) ].
  rewrite filter_nil. reflexivity.
Qed.

Lemma pricer_calls_of_ok (S K T r sigma : R) (n : Z) (option_type : string)
  (g : R * R * R * R * R) :
  calculate_greeks S K T r sigma n option_type = Ok g ->
  S <> 0
  /\ pricer_calls S K T r sigma n option_type
     = greeks_calls S K T r sigma n option_type.
Proof.
  intros Hg. apply calculate_greeks_inv in Hg.
  apply calculate_greeks_traced_inv in Hg.
  destruct Hg as (V1 & V2 & V3 & V4 & V5 & V6 & V7 & V8 & V9 & V10
                  & _ & _ & _ & _ & _ & _ & _ & _ & _ & _ & HS & _ & Hlog).
  split; assumption.
Qed.

(** C2, as stated, fails: on the scenario of the specification the Greeks
    request returns after nine pricer calls with perturbed inputs, ten calls
    in all, not eight. *)
Lemma greeks_request_makes_nine_perturbed_calls :
  is_ok (calculate_greeks 100 100 1 0.05 0.2 100 "call")
  /\ length (perturbed_calls (PricerCall 100 100 1 0.05 0.2 100 "call")
                             (pricer_calls 100 100 1 0.05 0.2 100 "call")) = 9%nat
  /\ length (perturbed_calls (PricerCall 100 100 1 0.05 0.2 100 "call")
                             (pricer_calls 100 100 1 0.05 0.2 100 "call")) <> 8%nat
  /\ length (pricer_calls 100 100 1 0.05 0.2 100 "call") = 10%nat
  /\ length (pricer_calls 100 100 1 0.05 0.2 100 "call") <> 8%nat.
Proof.
  pose proof calculate_greeks_scenario_ok as Hok.
  split; [exact Hok |].
  destruct Hok as [g Hg].
  destruct (pricer_calls_of_ok _ _ _ _ _ _ _ _ Hg) as [HS Hlog].
  rewrite Hlog, (perturbed_greeks_calls _ _ _ _ _ _ _ HS).
  simpl. repeat split; try reflexivity; discriminate.
Qed.

(** C2, as amended.  A Greeks request that returns has called the pricer
    exactly ten times: once with the unperturbed inputs (for theta) and nine
    times with perturbed inputs, 2 for delta, 2 more for gamma, 2 for vega,
    1 for theta and 2 for rho. *)
Theorem calculate_greeks_pricer_calls
  (S K T r sigma : R) (n : Z) (option_type : string) (g : R * R * R * R * R) :
  calculate_greeks S K T r sigma n option_type = Ok g ->
  pricer_calls S K T r sigma n option_type
  = greeks_calls S K T r sigma n option_type
  /\ length (pricer_calls S K T r sigma n option_type) = 10%nat
  /\ perturbed_calls (PricerCall S K T r sigma n option_type)
                     (pricer_calls S K T r sigma n option_type)
     = [ PricerCall (S * 1.01) K T r sigma n option_type;
         PricerCall (S * 0.99) K T r sigma n option_type;
         PricerCall (S * 1.01 * 1.01) K T r sigma n option_type;
         PricerCall (S * 0.99 * 0.99) K T r sigma n option_type;
         PricerCall S K T r (sigma + 0.01) n option_type;
         PricerCall S K T r (sigma - 0.01) n option_type;
         PricerCall S K (T - 1 / 365) r sigma n option_type;
         PricerCall S K T (r + 0.01) sigma n option_type;
         PricerCall S K T (r - 0.01) sigma n option_type ]
  /\ length (perturbed_calls (PricerCall S K T r sigma n option_type)
                             (pricer_calls S K T r sigma n option_type)) = 9%nat.
Proof.
  intros Hg. destruct (pricer_calls_of_ok _ _ _ _ _ _ _ _ Hg) as [HS Hlog].
  rewrite Hlog. rewrite (perturbed_greeks_calls S K T r sigma n option_type HS).
  repeat split; reflexivity.
Qed.

Lemma calculate_greeks_pricer_calls_witness :
  exists g : R * R * R * R * R,
    calculate_greeks 100 100 1 0.05 0.2 100 "call" = Ok g
    /\ length (pricer_calls 100 100 1 0.05 0.2 100 "call") = 10%nat
    /\ length (perturbed_calls (PricerCall 100 100 1 0.05 0.2 100 "call")
                               (pricer_calls 100 100 1 0.05 0.2 100 "call")) = 9%nat.
Proof.
  destruct calculate_greeks_scenario_ok as [g Hg].
  exists g. split; [exact Hg |].
  pose proof (calculate_greeks_pricer_calls 100 100 1 0.05 0.2 100 "call" g Hg)
    as (_ & H10 & _ & H9).
  split; assumption.
Defined.

(** ** Delta and theta *)

Lemma calculate_greeks_quotients (S K T r sigma : R) (n : Z) (option_type : string)
  (g : R * R * R * R * R) :
  calculate_greeks S K T r sigma n option_type = Ok g ->
  exists V_up V_down V_up_up V_down_down V_vol_up V_vol_down
         V_current V_T_down V_r_up V_r_down : R,
    binomial_tree (S * 1.01) K T r sigma n option_type = Ok V_up
    /\ binomial_tree (S * 0.99) K T r sigma n option_type = Ok V_down
    /\ binomial_tree S K T r sigma n option_type = Ok V_current
    /\ binomial_tree S K (T - 1 / 365) r sigma n option_type = Ok V_T_down
    /\ S <> 0
    /\ g = greeks_quotients S V_up V_down V_up_up V_down_down V_vol_up
                            V_vol_down V_current V_T_down V_r_up V_r_down.
Proof.
  intros Hg. apply calculate_greeks_inv in Hg.
  apply calculate_greeks_traced_inv in Hg.
  destruct Hg as (V1 & V2 & V3 & V4 & V5 & V6 & V7 & V8 & V9 & V10
                  & E1 & E2 & _ & _ & _ & _ & E7 & E8 & _ & _ & HS & Hg & _).
  exists V1, V2, V3, V4, V5, V6, V7, V8, V9, V10. repeat split; assumption.
Qed.





(** ** Expiry within one day *)

(** When the spot is not zero and the first seven calls return, an
    exception of the eighth call (the theta call at T - 1/365) is the
    exception of the request, raised after eight calls. *)
Lemma calculate_greeks_traced_theta_raises
  (S K T r sigma : R) (n : Z) (option_type : string)
  (V_up V_down V_up_up V_down_down V_vol_up V_vol_down V_current : R) (e : exn) :
  binomial_tree (S * 1.01) K T r sigma n option_type = Ok V_up ->
  binomial_tree (S * 0.99) K T r sigma n option_type = Ok V_down ->
  binomial_tree (S * 1.01 * 1.01) K T r sigma n option_type = Ok V_up_up ->
  binomial_tree (S * 0.99 * 0.99) K T r sigma n option_type = Ok V_down_down ->
  binomial_tree S K T r (sigma + 0.01) n option_type = Ok V_vol_up ->
  binomial_tree S K T r (sigma - 0.01) n option_type = Ok V_vol_down ->
  binomial_tree S K T r sigma n option_type = Ok V_current ->
  binomial_tree S K (T - 1 / 365) r sigma n option_type = Raise e ->
  S <> 0 ->
  calculate_greeks_traced S K T r sigma n option_type []
  = (Raise e, take 8 (greeks_calls S K T r sigma n option_type)).
Proof.
  intros E1 E2 E3 E4 E5 E6 E7 E8 HS.
  unfold calculate_greeks_traced. cbv zeta.
  run_call E1. run_call E2. run_div.
  run_call E3. run_div. run_call E4. run_div. run_div.
  run_call E5. run_call E6. run_div. run_div.
  run_div. run_call E7.
  erewrite tbind_raise; [reflexivity |].
  unfold call_binomial_tree. rewrite E8. reflexivity.
Qed.



(** ** The option type is not validated *)

Lemma exercise_ext (a b : string) (K x : R) :
  is_call a = is_call b -> exercise a K x = exercise b K x.
Proof. intros H. unfold exercise. rewrite H. reflexivity. Qed.

Lemma for_each_ext {A B : Type} (f g : B -> A -> result B) :
  (forall acc x, f acc x = g acc x) ->
  forall (xs : list A) (acc : B), for_each f xs acc = for_each g xs acc.
Proof.
  intros H. induction xs as [| x xs IH]; intros acc; simpl; [reflexivity |].
  rewrite H. destruct (g acc x); simpl; [apply IH | reflexivity].
Qed.

Lemma binomial_tree_ext (S K T r sigma : R) (n : Z) (a b : string) :
  is_call a = is_call b ->
  binomial_tree S K T r sigma n a = binomial_tree S K T r sigma n b.
Proof.
  intros H. unfold binomial_tree.
  destruct (py_div T (IZR n)) as [dt |]; simpl; [| reflexivity].
  destruct (py_sqrt dt) as [sq |]; simpl; [| reflexivity].
  destruct (py_div 1 (exp (sigma * sq))) as [d |]; simpl; [| reflexivity].
  destruct (py_div _ _) as [p |]; simpl; [| reflexivity].
  assert (Et : terminal_values S K (exp (sigma * sq)) d n a
               = terminal_values S K (exp (sigma * sq)) d n b).
  { unfold terminal_values. apply map_ext. intros x.
    unfold terminal_value. rewrite (exercise_ext a b) by exact H. reflexivity. }
  rewrite Et. f_equal.
  apply for_each_ext. intros vals i. unfold level_update.
  apply for_each_ext. intros vals' j. unfold node_update.
  destruct (py_index vals' (j + 1)); simpl; [| reflexivity].
  destruct (py_index vals' j); simpl; [| reflexivity].
  rewrite (exercise_ext a b) by exact H. reflexivity.
Qed.

Lemma same_result_bind {A B : Type} (m m' : traced A) (k k' : A -> traced B) :
  same_result m m' ->
  (forall a : A, same_result (k a) (k' a)) ->
  same_result (tbind m k) (tbind m' k').
Proof.
  intros Hm Hk log log'. unfold tbind.
  specialize (Hm log log').
  destruct (m log) as [[a | e] l1], (m' log') as [[a' | e'] l1'];
    simpl in Hm; try discriminate.
  - injection Hm as <-. apply Hk.
  - injection Hm as <-. reflexivity.
Qed.

Lemma same_result_pure {A : Type} (m : result A) :
  same_result (pure_step m) (pure_step m).
Proof. intros log log'. reflexivity. Qed.

Lemma same_result_ret {A : Type} (a : A) : same_result (tret a) (tret a).
Proof. intros log log'. reflexivity. Qed.

Lemma same_result_call (S K T r sigma : R) (n : Z) (a b : string) :
  is_call a = is_call b ->
  same_result (call_binomial_tree S K T r sigma n a)
              (call_binomial_tree S K T r sigma n b).
Proof.
  intros H log log'. unfold call_binomial_tree. simpl.
  apply binomial_tree_ext. exact H.
Qed.

Lemma calculate_greeks_ext (S K T r sigma : R) (n : Z) (a b : string) :
  is_call a = is_call b ->
  calculate_greeks S K T r sigma n a = calculate_greeks S K T r sigma n b.
Proof.
  intros H. unfold calculate_greeks.
  cut (same_result (calculate_greeks_traced S K T r sigma n a)
                   (calculate_greeks_traced S K T r sigma n b)).
  { intros Hsame. apply Hsame. }
  unfold calculate_greeks_traced. cbv zeta.
  repeat first
    [ apply same_result_ret
    | apply same_result_bind;
      [ first [ apply same_result_call; exact H | apply same_result_pure ]
      | intros ? ] ].
Qed.

Lemma error_iff_not_ok {A : Type} (m : result A) : is_error m <-> ~ is_ok m.
Proof.
  split.
  - intros He Hok. exact (ok_not_error m Hok He).
  - intros Hn. destruct (result_ok_or_error m) as [Hok | He]; [contradiction | exact He].
Qed.



(** * Further properties of the pricer and of the Greeks *)

(** ** Which exception the pricer raises *)

Lemma binomial_tree_sqrt_raises (S K T r sigma : R) (n : Z) (option_type : string) :
  n <> 0%Z -> T / IZR n < 0 ->
  binomial_tree S K T r sigma n option_type = Raise ValueError.
Proof.
  intros Hn Hneg. unfold binomial_tree.
  rewrite py_div_ok by (apply not_0_IZR; exact Hn). simpl.
  rewrite py_sqrt_neg by exact Hneg. reflexivity.
Qed.

Lemma binomial_tree_degenerate_raises
  (S K T r sigma : R) (n : Z) (option_type : string) :
  n <> 0%Z -> 0 <= T / IZR n -> T = 0 \/ sigma = 0 ->
  binomial_tree S K T r sigma n option_type = Raise ZeroDivisionError.
Proof.
  intros Hn Hdt Hz. unfold binomial_tree.
  rewrite py_div_ok by (apply not_0_IZR; exact Hn). simpl.
  rewrite py_sqrt_ok by exact Hdt. simpl.
  rewrite py_div_ok by (pose proof (exp_pos (sigma * sqrt (T / IZR n))); lra). simpl.
  assert (E : sigma * sqrt (T / IZR n) = 0).
  { destruct Hz as [-> | ->]; [| ring].
    unfold Rdiv. rewrite Rmult_0_l, sqrt_0. ring. }
  apply up_minus_down_zero in E.
  unfold py_div at 1. destruct (Req_dec_T _ 0) as [_ | N]; [reflexivity | contradiction].
Qed.

Lemma binomial_tree_empty_list_raises
  (S K T r sigma : R) (n : Z) (option_type : string) :
  (n < 0)%Z -> T < 0 -> sigma <> 0 ->
  binomial_tree S K T r sigma n option_type = Raise IndexError.
Proof.
  intros Hn HT Hs. unfold binomial_tree.
  assert (Hnz : IZR n <> 0) by (apply not_0_IZR; lia).
  assert (Hinv : / IZR n < 0) by (apply Rinv_lt_0_compat, IZR_lt; lia).
  assert (Hdt : 0 < T / IZR n) by (unfold Rdiv; nra).
  rewrite py_div_ok by exact Hnz. simpl.
  rewrite py_sqrt_ok by lra. simpl.
  rewrite py_div_ok by (pose proof (exp_pos (sigma * sqrt (T / IZR n))); lra). simpl.
  rewrite py_div_ok.
  2:{ rewrite up_minus_down_zero. pose proof (sqrt_lt_R0 _ Hdt).
      intros E. apply Rmult_integral in E. lra. }
  simpl. unfold terminal_values, terminal_prices, range, range_down.
  replace (Z.to_nat (n + 1)) with 0%nat by lia.
  replace (Z.to_nat n) with 0%nat by lia.
  reflexivity.
Qed.



(** ** Where the Greeks request returns and how it fails *)



Lemma pure_div_raise (x y : R) (log : list pricer_call) :
  y = 0 -> pure_step (py_div x y) log = (Raise ZeroDivisionError, log).
Proof. intros ->. unfold pure_step. rewrite py_div_zero. reflexivity. Qed.

Lemma calculate_greeks_traced_zero_spot
  (K T r sigma : R) (n : Z) (option_type : string) :
  (1 <= n)%Z -> 0 < T -> sigma <> 0 ->
  calculate_greeks_traced 0 K T r sigma n option_type []
  = (Raise ZeroDivisionError,
     [ PricerCall (0 * 1.01) K T r sigma n option_type;
       PricerCall (0 * 0.99) K T r sigma n option_type ]).
Proof.
  intros Hn HT Hs.
  assert (E1 := binomial_tree_value (0 * 1.01) K T r sigma n option_type Hn HT Hs).
  assert (E2 := binomial_tree_value (0 * 0.99) K T r sigma n option_type Hn HT Hs).
  unfold calculate_greeks_traced. cbv zeta.
  run_call E1. run_call E2.
  erewrite tbind_raise; [reflexivity |].
  apply pure_div_raise. lra.
Qed.



Lemma calculate_greeks_traced_bump_degenerate
  (S K T r : R) (n : Z) (option_type : string) :
  (1 <= n)%Z -> 0 < T -> S <> 0 ->
  calculate_greeks_traced S K T r 0.01 n option_type []
  = (Raise ZeroDivisionError, take 6 (greeks_calls S K T r 0.01 n option_type)).
Proof.
  intros Hn HT HS.
  assert (Hs : (0.01 : R) <> 0) by lra.
  assert (E1 := binomial_tree_value (S * 1.01) K T r 0.01 n option_type Hn HT Hs).
  assert (E2 := binomial_tree_value (S * 0.99) K T r 0.01 n option_type Hn HT Hs).
  assert (E3 := binomial_tree_value (S * 1.01 * 1.01) K T r 0.01 n option_type Hn HT Hs).
  assert (E4 := binomial_tree_value (S * 0.99 * 0.99) K T r 0.01 n option_type Hn HT Hs).
  assert (E5 := binomial_tree_value S K T r (0.01 + 0.01) n option_type Hn HT
                                    ltac:(lra)).
  assert (E6 : binomial_tree S K T r (0.01 - 0.01) n option_type
               = Raise ZeroDivisionError).
  { apply binomial_tree_degenerate_raises; [lia | | right; lra].
    left. apply Rdiv_lt_0_compat; [exact HT | apply IZR_lt; lia]. }
  unfold calculate_greeks_traced. cbv zeta.
  run_call E1. run_call E2. run_div.
  run_call E3. run_div. run_call E4. run_div. run_div.
  run_call E5.
  erewrite tbind_raise; [reflexivity |].
  unfold call_binomial_tree. rewrite E6. reflexivity.
Qed.



(** ** The pricer calls of a request that raises *)

Lemma consumes_ret {A : Type} (a : A) : consumes (tret a) [].
Proof. intros log. left. exists a. unfold tret. rewrite app_nil_r. reflexivity. Qed.

Lemma consumes_bind_call {B : Type} (S K T r sigma : R) (n : Z) (option_type : string)
  (k : R -> traced B) (cs : list pricer_call) :
  (forall v : R, consumes (k v) cs) ->
  consumes (tbind (call_binomial_tree S K T r sigma n option_type) k)
           (PricerCall S K T r sigma n option_type :: cs).
Proof.
  intros Hk log. unfold tbind, call_binomial_tree.
  destruct (binomial_tree S K T r sigma n option_type) as [v | e].
  - destruct (Hk v (log ++ [PricerCall S K T r sigma n option_type]))
      as [(b & Eb) | (e & cs' & Eb & Hpre)].
    + left. exists b. rewrite Eb, <- app_assoc. reflexivity.
    + right. exists e, (PricerCall S K T r sigma n option_type :: cs').
      rewrite Eb, <- app_assoc. split; [reflexivity |].
      apply prefix_cons. exact Hpre.
  - right. exists e, [PricerCall S K T r sigma n option_type].
    split; [reflexivity |]. apply prefix_cons, prefix_nil.
Qed.

Lemma consumes_bind_pure {A B : Type} (m : result A) (k : A -> traced B)
  (cs : list pricer_call) :
  (forall a : A, m = Ok a -> consumes (k a) cs) ->
  consumes (tbind (pure_step m) k) cs.
Proof.
  intros Hk log. unfold tbind, pure_step. destruct m as [a | e].
  - apply Hk. reflexivity.
  - right. exists e, []. rewrite app_nil_r. split; [reflexivity | apply prefix_nil].
Qed.

Lemma calculate_greeks_traced_consumes
  (S K T r sigma : R) (n : Z) (option_type : string) :
  consumes (calculate_greeks_traced S K T r sigma n option_type)
           (greeks_calls S K T r sigma n option_type).
Proof.
  unfold calculate_greeks_traced, greeks_calls. cbv zeta.
  repeat first
    [ apply consumes_ret
    | apply consumes_bind_call; intros ?
    | apply consumes_bind_pure;
      let a := fresh "a" in
      let Ha := fresh "Ha" in
      intros a Ha;
      try (rewrite py_div_ok in Ha by lra; injection Ha as <-) ].
Qed.

(** Whether it returns or raises, and on every input, a Greeks request
    calls the pricer only with the argument tuples of [greeks_calls], in
    that order and without gaps: its calls are a prefix of that list, so
    never more than ten. *)
Theorem pricer_calls_prefix
  (S K T r sigma : R) (n : Z) (option_type : string) :
  pricer_calls S K T r sigma n option_type
    `prefix_of` greeks_calls S K T r sigma n option_type
  /\ (length (pricer_calls S K T r sigma n option_type) <= 10)%nat.
Proof.
  assert (Hpre : pricer_calls S K T r sigma n option_type
                   `prefix_of` greeks_calls S K T r sigma n option_type).
  { unfold pricer_calls.
    destruct (calculate_greeks_traced_consumes S K T r sigma n option_type [])
      as [(g & E) | (e & cs' & E & Hp)]; rewrite E; simpl.
    - exists []. rewrite app_nil_r. reflexivity.
    - exact Hp. }
  split; [exact Hpre |].
  apply prefix_length in Hpre. exact Hpre.
Qed.

(** ** Gamma, vega and rho *)

(** Vega and rho are central differences over a bump of 0.01, divided by
    0.02 and then by 100: in exact arithmetic, half the difference of the
    two bumped prices. *)
Theorem calculate_greeks_vega_rho
  (S K T r sigma : R) (n : Z) (option_type : string) (g : R * R * R * R * R) :
  calculate_greeks S K T r sigma n option_type = Ok g ->
  exists V_vol_up V_vol_down V_r_up V_r_down : R,
    binomial_tree S K T r (sigma + 0.01) n option_type = Ok V_vol_up
    /\ binomial_tree S K T r (sigma - 0.01) n option_type = Ok V_vol_down
    /\ binomial_tree S K T (r + 0.01) sigma n option_type = Ok V_r_up
    /\ binomial_tree S K T (r - 0.01) sigma n option_type = Ok V_r_down
    /\ vega_of g = (V_vol_up - V_vol_down) / 2
    /\ rho_of g = (V_r_up - V_r_down) / 2.
Proof.
  intros Hg. apply calculate_greeks_inv in Hg.
  apply calculate_greeks_traced_inv in Hg.
  destruct Hg as (V1 & V2 & V3 & V4 & V5 & V6 & V7 & V8 & V9 & V10
                  & _ & _ & _ & _ & E5 & E6 & _ & _ & E9 & E10 & _ & -> & _).
  exists V5, V6, V9, V10. repeat split; try assumption.
  - unfold greeks_quotients, vega_of. lra.
  - unfold greeks_quotients, rho_of. lra.
Qed.

Lemma calculate_greeks_vega_rho_witness :
  exists (g : R * R * R * R * R) (V_vol_up V_vol_down : R),
    calculate_greeks 100 100 1 0.05 0.2 100 "call" = Ok g
    /\ binomial_tree 100 100 1 0.05 (0.2 + 0.01) 100 "call" = Ok V_vol_up
    /\ binomial_tree 100 100 1 0.05 (0.2 - 0.01) 100 "call" = Ok V_vol_down
    /\ vega_of g = (V_vol_up - V_vol_down) / 2.
Proof.
  destruct calculate_greeks_scenario_ok as [g Hg].
  destruct (calculate_greeks_vega_rho 100 100 1 0.05 0.2 100 "call" g Hg)
    as (Vu & Vd & _ & _ & E1 & E2 & _ & _ & Hv & _).
  exists g, Vu, Vd. repeat split; assumption.
Defined.



(** ** The sign of the volatility *)

Section Mirror.

Variables (S K r dt u d p : R) (option_type : string).

(** Swapping the up and down factors and the two probabilities mirrors
    the lattice: node (i, j) becomes node (i, i - j). *)
Lemma tree_value_mirror :
  forall k i j : nat,
    (j <= i)%nat ->
    tree_value S K r dt d u (1 - p) option_type k i j
    = tree_value S K r dt u d p option_type k i (i - j).
Proof.
  induction k as [| k IH]; intros i j Hj; simpl.
  - unfold stock_at. f_equal.
    replace (i - (i - j))%nat with j by lia. ring.
  - rewrite (IH (i + 1)%nat (j + 1)%nat) by lia.
    rewrite (IH (i + 1)%nat j) by lia.
    replace (i + 1 - (j + 1))%nat with (i - j)%nat by lia.
    replace (i + 1 - j)%nat with (i - j + 1)%nat by lia.
    unfold stock_at. replace (i - (i - j))%nat with j by lia.
    f_equal; [f_equal; ring | f_equal; ring].
Qed.

End Mirror.

Lemma mirror_factors (x : R) :
  1 / exp (- x) = exp x /\ exp (- x) = 1 / exp x.
Proof.
  pose proof (exp_pos x) as Hx. rewrite exp_Ropp. split; field; lra.
Qed.

Lemma mirror_prob (e u d : R) :
  u - d <> 0 -> (e - u) / (d - u) = 1 - (e - d) / (u - d).
Proof. intros H. field. split; lra. Qed.

Lemma up_factor_opp (T sigma : R) (n : Z) :
  up_factor T (- sigma) n = down_factor T sigma n.
Proof.
  unfold down_factor, up_factor.
  replace (- sigma * sqrt (step_dt T n)) with (- (sigma * sqrt (step_dt T n))) by ring.
  apply mirror_factors.
Qed.

Lemma down_factor_opp (T sigma : R) (n : Z) :
  down_factor T (- sigma) n = up_factor T sigma n.
Proof.
  unfold down_factor at 1. unfold up_factor.
  replace (- sigma * sqrt (step_dt T n)) with (- (sigma * sqrt (step_dt T n))) by ring.
  apply mirror_factors.
Qed.

Lemma up_prob_opp (T r sigma : R) (n : Z) :
  (1 <= n)%Z -> 0 < T -> sigma <> 0 ->
  up_prob T r (- sigma) n = 1 - up_prob T r sigma n.
Proof.
  intros Hn HT Hs. unfold up_prob.
  rewrite up_factor_opp, down_factor_opp.
  apply mirror_prob. apply up_neq_down; assumption.
Qed.

Lemma sign_cases (T : R) (n : Z) :
  n <> 0%Z -> T / IZR n < 0 \/ T = 0 \/ (0 < T /\ (1 <= n)%Z) \/ (T < 0 /\ (n < 0)%Z).
Proof.
  intros Hn.
  destruct (Z_lt_ge_dec n 0%Z) as [L | G].
  - assert (Hinv : / IZR n < 0) by (apply Rinv_lt_0_compat, IZR_lt; lia).
    destruct (Rtotal_order T 0) as [Hlt | [Heq | Hgt]].
    + right; right; right. split; assumption.
    + right; left. exact Heq.
    + left. unfold Rdiv. nra.
  - assert (Hinv : 0 < / IZR n) by (apply Rinv_0_lt_compat, IZR_lt; lia).
    destruct (Rtotal_order T 0) as [Hlt | [Heq | Hgt]].
    + left. unfold Rdiv. nra.
    + right; left. exact Heq.
    + right; right; left. split; [exact Hgt | lia].
Qed.


(** ** Change of units *)

Lemma py_max_scale (c a b : R) : 0 <= c -> py_max (c * a) (c * b) = c * py_max a b.
Proof.
  intros Hc. unfold py_max.
  destruct (Rlt_dec a b) as [L | N], (Rlt_dec (c * a) (c * b)) as [L' | N'];
    try reflexivity; nra.
Qed.

Lemma exercise_scale (option_type : string) (c K x : R) :
  exercise option_type (c * K) (c * x) = c * exercise option_type K x.
Proof. unfold exercise. destruct (is_call option_type); ring. Qed.

Lemma tree_value_scale (S K r dt u d p c : R) (option_type : string) :
  0 <= c ->
  forall k i j : nat,
    tree_value (c * S) (c * K) r dt u d p option_type k i j
    = c * tree_value S K r dt u d p option_type k i j.
Proof.
  intros Hc. induction k as [| k IH]; intros i j; simpl.
  - unfold terminal_value, stock_at.
    replace (c * S * u ^ j * d ^ (i - j)) with (c * (S * u ^ j * d ^ (i - j))) by ring.
    rewrite exercise_scale. rewrite <- (py_max_scale c) by exact Hc.
    f_equal. ring.
  - rewrite !IH. unfold stock_at.
    replace (c * S * u ^ j * d ^ (i - j)) with (c * (S * u ^ j * d ^ (i - j))) by ring.
    rewrite exercise_scale. rewrite <- (py_max_scale c) by exact Hc.
    f_equal. ring.
Qed.



(** ** The risk-neutral probability reprices the stock *)

Lemma lattice_martingale (T r sigma : R) (n : Z) :
  (1 <= n)%Z -> 0 < T -> sigma <> 0 ->
  exp (- r * step_dt T n)
  * (up_prob T r sigma n * up_factor T sigma n
     + (1 - up_prob T r sigma n) * down_factor T sigma n) = 1.
Proof.
  intros Hn HT Hs.
  pose proof (up_neq_down T sigma n Hn HT Hs) as Hud.
  assert (E : up_prob T r sigma n * up_factor T sigma n
              + (1 - up_prob T r sigma n) * down_factor T sigma n
              = exp (r * step_dt T n)).
  { unfold up_prob. field. exact Hud. }
  rewrite E, <- exp_plus.
  replace (- r * step_dt T n + r * step_dt T n) with 0 by ring.
  apply exp_0.
Qed.

Lemma discount_le_1 (T r : R) (n : Z) :
  (1 <= n)%Z -> 0 < T -> 0 <= r -> exp (- r * step_dt T n) <= 1.
Proof.
  intros Hn HT Hr. pose proof (step_dt_pos T n Hn HT) as Hdt.
  rewrite <- exp_0.
  destruct (Req_dec_T r 0) as [-> | Hr0].
  - right. f_equal. ring.
  - left. apply exp_increasing. nra.
Qed.

Section Bounds.

Variables (S K r dt u d p : R).
Hypothesis Hu : 0 < u.
Hypothesis Hd : 0 < d.
Hypothesis Hp : 0 <= p <= 1.
Hypothesis Hm : exp (- r * dt) * (p * u + (1 - p) * d) = 1.

Lemma stock_at_up (i j : nat) :
  stock_at S u d (i + 1) (j + 1) = stock_at S u d i j * u.
Proof.
  unfold stock_at. replace (i + 1 - (j + 1))%nat with (i - j)%nat by lia.
  rewrite pow_add. simpl. ring.
Qed.

Lemma stock_at_down (i j : nat) :
  (j <= i)%nat -> stock_at S u d (i + 1) j = stock_at S u d i j * d.
Proof.
  intros Hj. unfold stock_at. replace (i + 1 - j)%nat with (i - j + 1)%nat by lia.
  rewrite pow_add. simpl. ring.
Qed.

(** The discounted expectation of the two child stock prices is the stock
    price of the node. *)
Lemma stock_at_martingale (i j : nat) :
  (j <= i)%nat ->
  exp (- r * dt) * (p * stock_at S u d (i + 1) (j + 1)
                    + (1 - p) * stock_at S u d (i + 1) j)
  = stock_at S u d i j.
Proof.
  intros Hj. rewrite stock_at_up, stock_at_down by exact Hj.
  transitivity (stock_at S u d i j * (exp (- r * dt) * (p * u + (1 - p) * d)));
    [ring | rewrite Hm; ring].
Qed.

Lemma stock_at_nonneg (i j : nat) : 0 <= S -> 0 <= stock_at S u d i j.
Proof.
  intros HS. unfold stock_at.
  pose proof (pow_lt u j Hu). pose proof (pow_lt d (i - j) Hd).
  apply Rmult_le_pos; [apply Rmult_le_pos |]; lra.
Qed.

Lemma tree_value_ge_exercise (option_type : string) (k i j : nat) :
  exercise option_type K (stock_at S u d i j)
  <= tree_value S K r dt u d p option_type k i j.
Proof.
  destruct k; simpl; [apply py_max_l | apply py_max_r].
Qed.

Lemma tree_value_nonneg (option_type : string) :
  forall k i j : nat, 0 <= tree_value S K r dt u d p option_type k i j.
Proof.
  induction k as [| k IH]; intros i j; simpl.
  - apply py_max_r.
  - apply py_max_nonneg_l. pose proof (exp_pos (- r * dt)).
    pose proof (IH (i + 1)%nat (j + 1)%nat). pose proof (IH (i + 1)%nat j).
    apply Rmult_le_pos; [lra |].
    apply Rplus_le_le_0_compat; apply Rmult_le_pos; lra.
Qed.

Lemma py_max_lub (a b c : R) : a <= c -> b <= c -> py_max a b <= c.
Proof. intros Ha Hb. rewrite py_max_Rmax. apply Rmax_lub; assumption. Qed.

Lemma tree_value_call_le_stock :
  0 <= S -> 0 <= K ->
  forall k i j : nat,
    (j <= i)%nat ->
    tree_value S K r dt u d p "call" k i j <= stock_at S u d i j.
Proof.
  intros HS HK. induction k as [| k IH]; intros i j Hj; simpl.
  - pose proof (stock_at_nonneg i j HS).
    apply py_max_lub; unfold exercise; simpl; lra.
  - apply py_max_lub; [| unfold exercise; simpl; lra].
    rewrite <- (stock_at_martingale i j Hj).
    pose proof (exp_pos (- r * dt)).
    pose proof (IH (i + 1)%nat (j + 1)%nat ltac:(lia)).
    pose proof (IH (i + 1)%nat j ltac:(lia)).
    apply Rmult_le_compat_l; [lra |].
    apply Rplus_le_compat; apply Rmult_le_compat_l; lra.
Qed.

Lemma tree_value_put_le_strike (option_type : string) :
  is_call option_type = false ->
  0 <= S -> 0 <= K -> exp (- r * dt) <= 1 ->
  forall k i j : nat, tree_value S K r dt u d p option_type k i j <= K.
Proof.
  intros Hty HS HK Hdisc. induction k as [| k IH]; intros i j; simpl.
  - pose proof (stock_at_nonneg i j HS).
    apply py_max_lub; unfold exercise; rewrite ?Hty; lra.
  - pose proof (stock_at_nonneg i j HS).
    apply py_max_lub; [| unfold exercise; rewrite Hty; lra].
    pose proof (exp_pos (- r * dt)).
    pose proof (IH (i + 1)%nat (j + 1)%nat).
    pose proof (IH (i + 1)%nat j).
    assert (p * tree_value S K r dt u d p option_type k (i + 1) (j + 1)
            + (1 - p) * tree_value S K r dt u d p option_type k (i + 1) j <= K) by nra.
    nra.
Qed.

End Bounds.

(** ** Upper bounds of the price *)





(** ** Early exercise of a call *)

Section EarlyExercise.

Variables (S K r dt u d p : R).
Hypothesis Hp : 0 <= p <= 1.
Hypothesis Hm : exp (- r * dt) * (p * u + (1 - p) * d) = 1.
Hypothesis Hdisc : exp (- r * dt) <= 1.
Hypothesis HK : 0 <= K.

(** At every node the discounted expectation of a call is at least its
    exercise value. *)
Lemma call_continuation_ge_exercise (k i j : nat) :
  (j <= i)%nat ->
  exercise "call" K (stock_at S u d i j)
  <= exp (- r * dt)
     * (p * tree_value S K r dt u d p "call" k (i + 1) (j + 1)
        + (1 - p) * tree_value S K r dt u d p "call" k (i + 1) j).
Proof.
  intros Hj.
  pose proof (tree_value_ge_exercise S K r dt u d p "call" k (i + 1) (j + 1)) as H1.
  pose proof (tree_value_ge_exercise S K r dt u d p "call" k (i + 1) j) as H0.
  pose proof (stock_at_martingale S r dt u d p Hm i j Hj) as Hmart.
  pose proof (exp_pos (- r * dt)) as He.
  unfold exercise in *. simpl in *.
  set (a := tree_value S K r dt u d p "call" k (i + 1) (j + 1)) in *.
  set (b := tree_value S K r dt u d p "call" k (i + 1) j) in *.
  set (su := stock_at S u d (i + 1) (j + 1)) in *.
  set (sd := stock_at S u d (i + 1) j) in *.
  set (s := stock_at S u d i j) in *.
  set (e := exp (- r * dt)) in *.
  assert (Hlow : p * (su - K) + (1 - p) * (sd - K) <= p * a + (1 - p) * b).
  { apply Rplus_le_compat; apply Rmult_le_compat_l; lra. }
  assert (Hexp : e * (p * (su - K) + (1 - p) * (sd - K)) = s - e * K).
  { rewrite <- Hmart. ring. }
  assert (e * (p * (su - K) + (1 - p) * (sd - K)) <= e * (p * a + (1 - p) * b))
    by (apply Rmult_le_compat_l; lra).
  nra.
Qed.

Lemma tree_value_call_european :
  forall k i j : nat,
    (j <= i)%nat ->
    tree_value S K r dt u d p "call" k i j
    = european_value S K r dt u d p "call" k i j.
Proof.
  induction k as [| k IH]; intros i j Hj; simpl; [reflexivity |].
  rewrite py_max_eq_l by (apply call_continuation_ge_exercise; exact Hj).
  rewrite !IH by lia. reflexivity.
Qed.

End EarlyExercise.



(** ** The slope of the price in the spot *)

Lemma py_max_diff (a1 b1 a2 b2 D : R) :
  a2 - a1 <= D -> b2 - b1 <= D -> py_max a2 b2 - py_max a1 b1 <= D.
Proof.
  intros Ha Hb. pose proof (py_max_l a1 b1). pose proof (py_max_r a1 b1).
  unfold py_max at 1. destruct (Rlt_dec a2 b2); lra.
Qed.

Section Slope.

Variables (K r dt u d p : R).
Hypothesis Hu : 0 < u.
Hypothesis Hd : 0 < d.
Hypothesis Hp : 0 <= p <= 1.
Hypothesis Hm : exp (- r * dt) * (p * u + (1 - p) * d) = 1.

Lemma continuation_diff (a1 a2 b1 b2 Da Db : R) :
  a2 - a1 <= Da -> b2 - b1 <= Db ->
  exp (- r * dt) * (p * a2 + (1 - p) * b2)
  - exp (- r * dt) * (p * a1 + (1 - p) * b1)
  <= exp (- r * dt) * (p * Da + (1 - p) * Db).
Proof.
  intros Ha Hb. pose proof (exp_pos (- r * dt)) as He.
  rewrite <- Rmult_minus_distr_l. apply Rmult_le_compat_l; [lra |].
  assert (p * (a2 - a1) <= p * Da) by (apply Rmult_le_compat_l; lra).
  assert ((1 - p) * (b2 - b1) <= (1 - p) * Db) by (apply Rmult_le_compat_l; lra).
  lra.
Qed.

Lemma stock_diff_martingale (S1 S2 : R) (i j : nat) :
  (j <= i)%nat ->
  exp (- r * dt)
  * (p * (stock_at S2 u d (i + 1) (j + 1) - stock_at S1 u d (i + 1) (j + 1))
     + (1 - p) * (stock_at S2 u d (i + 1) j - stock_at S1 u d (i + 1) j))
  = stock_at S2 u d i j - stock_at S1 u d i j.
Proof.
  intros Hj.
  rewrite <- (stock_at_martingale S2 r dt u d p Hm i j Hj).
  rewrite <- (stock_at_martingale S1 r dt u d p Hm i j Hj).
  ring.
Qed.

(** A call gains at most what the stock gains. *)
Lemma tree_value_call_slope (S1 S2 : R) :
  S1 <= S2 ->
  forall k i j : nat,
    (j <= i)%nat ->
    tree_value S2 K r dt u d p "call" k i j - tree_value S1 K r dt u d p "call" k i j
    <= stock_at S2 u d i j - stock_at S1 u d i j.
Proof.
  intros HS. induction k as [| k IH]; intros i j Hj; simpl.
  - pose proof (stock_at_mono u d Hu Hd S1 S2 i j HS).
    apply py_max_diff; unfold exercise; simpl; lra.
  - apply py_max_diff; [| unfold exercise; simpl; lra].
    rewrite <- (stock_diff_martingale S1 S2 i j Hj).
    apply continuation_diff; apply IH; lia.
Qed.

(** A put loses at most what the stock gains. *)
Lemma tree_value_put_slope (S1 S2 : R) (option_type : string) :
  is_call option_type = false ->
  S1 <= S2 ->
  forall k i j : nat,
    (j <= i)%nat ->
    tree_value S1 K r dt u d p option_type k i j
    - tree_value S2 K r dt u d p option_type k i j
    <= stock_at S2 u d i j - stock_at S1 u d i j.
Proof.
  intros Hty HS. induction k as [| k IH]; intros i j Hj; simpl.
  - pose proof (stock_at_mono u d Hu Hd S1 S2 i j HS).
    apply py_max_diff; unfold exercise; rewrite ?Hty; lra.
  - apply py_max_diff; [| unfold exercise; rewrite Hty; lra].
    rewrite <- (stock_diff_martingale S1 S2 i j Hj).
    apply continuation_diff; apply IH; lia.
Qed.

End Slope.

Lemma root_stock (S u d : R) : stock_at S u d 0 0 = S.
Proof. unfold stock_at. simpl. ring. Qed.



(** ** Convexity of the price in the spot *)

Lemma py_max_convex (l a b a1 b1 a2 b2 : R) :
  0 <= l <= 1 ->
  a <= l * a1 + (1 - l) * a2 ->
  b <= l * b1 + (1 - l) * b2 ->
  py_max a b <= l * py_max a1 b1 + (1 - l) * py_max a2 b2.
Proof.
  intros Hl Ha Hb.
  pose proof (py_max_l a1 b1). pose proof (py_max_r a1 b1).
  pose proof (py_max_l a2 b2). pose proof (py_max_r a2 b2).
  assert (l * a1 <= l * py_max a1 b1) by (apply Rmult_le_compat_l; lra).
  assert (l * b1 <= l * py_max a1 b1) by (apply Rmult_le_compat_l; lra).
  assert ((1 - l) * a2 <= (1 - l) * py_max a2 b2) by (apply Rmult_le_compat_l; lra).
  assert ((1 - l) * b2 <= (1 - l) * py_max a2 b2) by (apply Rmult_le_compat_l; lra).
  apply py_max_lub; lra.
Qed.

Lemma stock_at_affine (l S1 S2 u d : R) (i j : nat) :
  stock_at (l * S1 + (1 - l) * S2) u d i j
  = l * stock_at S1 u d i j + (1 - l) * stock_at S2 u d i j.
Proof. unfold stock_at. ring. Qed.

Lemma exercise_affine (option_type : string) (K l x1 x2 : R) :
  exercise option_type K (l * x1 + (1 - l) * x2)
  = l * exercise option_type K x1 + (1 - l) * exercise option_type K x2.
Proof. unfold exercise. destruct (is_call option_type); ring. Qed.

Lemma tree_value_convex (K r dt u d p : R) (option_type : string) (l S1 S2 : R) :
  0 <= p <= 1 -> 0 <= l <= 1 ->
  forall k i j : nat,
    tree_value (l * S1 + (1 - l) * S2) K r dt u d p option_type k i j
    <= l * tree_value S1 K r dt u d p option_type k i j
       + (1 - l) * tree_value S2 K r dt u d p option_type k i j.
Proof.
  intros Hp Hl. induction k as [| k IH]; intros i j; simpl.
  - unfold terminal_value. rewrite stock_at_affine, exercise_affine.
    apply py_max_convex; [exact Hl | lra | lra].
  - rewrite stock_at_affine, exercise_affine.
    apply py_max_convex; [exact Hl | | lra].
    pose proof (exp_pos (- r * dt)) as He.
    pose proof (IH (i + 1)%nat (j + 1)%nat) as H1.
    pose proof (IH (i + 1)%nat j) as H0.
    set (e := exp (- r * dt)) in *.
    set (a := tree_value (l * S1 + (1 - l) * S2) K r dt u d p option_type k (i + 1) (j + 1)) in *.
    set (a1 := tree_value S1 K r dt u d p option_type k (i + 1) (j + 1)) in *.
    set (a2 := tree_value S2 K r dt u d p option_type k (i + 1) (j + 1)) in *.
    set (b := tree_value (l * S1 + (1 - l) * S2) K r dt u d p option_type k (i + 1) j) in *.
    set (b1 := tree_value S1 K r dt u d p option_type k (i + 1) j) in *.
    set (b2 := tree_value S2 K r dt u d p option_type k (i + 1) j) in *.
    replace (l * (e * (p * a1 + (1 - p) * b1)) + (1 - l) * (e * (p * a2 + (1 - p) * b2)))
      with (e * (p * (l * a1 + (1 - l) * a2) + (1 - p) * (l * b1 + (1 - l) * b2)))
      by ring.
    apply Rmult_le_compat_l; [lra |].
    apply Rplus_le_compat; apply Rmult_le_compat_l; lra.
Qed.

(** Chords of a convex function: the slope over [a, b] is at most the
    slope over [b, c]. *)
Lemma convex_chords (f : R -> R) :
  (forall x y l : R, 0 <= l <= 1 -> f (l * x + (1 - l) * y) <= l * f x + (1 - l) * f y) ->
  forall a b c : R,
    a < b -> b < c ->
    (f b - f a) / (b - a) <= (f c - f b) / (c - b).
Proof.
  intros Hconv a b c Hab Hbc.
  set (l := (c - b) / (c - a)).
  assert (Hl : 0 <= l <= 1).
  { unfold l. split.
    - apply Rmult_le_pos; [lra | left; apply Rinv_0_lt_compat; lra].
    - apply Rmult_le_reg_r with (c - a); [lra |].
      unfold Rdiv. rewrite Rmult_assoc, Rinv_l by lra. lra. }
  pose proof (Hconv a c l Hl) as H.
  replace (l * a + (1 - l) * c) with b in H by (unfold l; field; lra).
  assert (Hprod : (c - b) * (f b - f a) <= (b - a) * (f c - f b)).
  { assert (H' : (c - a) * f b <= (c - a) * (l * f a + (1 - l) * f c))
      by (apply Rmult_le_compat_l; lra).
    replace ((c - a) * (l * f a + (1 - l) * f c))
      with ((c - b) * f a + (b - a) * f c) in H' by (unfold l; field; lra).
    lra. }
  replace ((f b - f a) / (b - a))
    with ((c - b) * (f b - f a) * / ((b - a) * (c - b))) by (field; lra).
  replace ((f c - f b) / (c - b))
    with ((b - a) * (f c - f b) * / ((b - a) * (c - b))) by (field; lra).
  apply Rmult_le_compat_r; [| exact Hprod].
  left. apply Rinv_0_lt_compat. apply Rmult_lt_0_compat; lra.
Qed.



(** ** Monotonicity in the strike *)

Section StrikeMonotone.

Variables (S r dt u d p : R).
Hypothesis Hp : 0 <= p <= 1.

Lemma tree_value_call_mono_strike (K1 K2 : R) :
  K1 <= K2 ->
  forall k i j : nat,
    tree_value S K2 r dt u d p "call" k i j <= tree_value S K1 r dt u d p "call" k i j.
Proof.
  intros H. induction k as [| k IH]; intros i j; simpl.
  - unfold terminal_value. apply py_max_mono; [| lra]. unfold exercise. simpl. lra.
  - apply py_max_mono.
    + apply continuation_mono; [exact Hp | apply IH | apply IH].
    + unfold exercise. simpl. lra.
Qed.

Lemma tree_value_put_mono_strike (K1 K2 : R) (option_type : string) :
  is_call option_type = false ->
  K1 <= K2 ->
  forall k i j : nat,
    tree_value S K1 r dt u d p option_type k i j
    <= tree_value S K2 r dt u d p option_type k i j.
Proof.
  intros Hty H. induction k as [| k IH]; intros i j; simpl.
  - unfold terminal_value. apply py_max_mono; [| lra]. unfold exercise. rewrite Hty. lra.
  - apply py_max_mono.
    + apply continuation_mono; [exact Hp | apply IH | apply IH].
    + unfold exercise. rewrite Hty. lra.
Qed.

End StrikeMonotone.



(** ** Zero spot and zero strike *)

Lemma py_max_nonpos_0 (a : R) : a <= 0 -> py_max a 0 = 0.
Proof. intros H. unfold py_max. destruct (Rlt_dec a 0); lra. Qed.

Lemma py_max_le_r (a b : R) : a <= b -> py_max a b = b.
Proof. intros H. unfold py_max. destruct (Rlt_dec a b); lra. Qed.

Section Edges.

Variables (r dt u d p : R).
Hypothesis Hu : 0 < u.
Hypothesis Hd : 0 < d.

Lemma stock_at_zero (i j : nat) : stock_at 0 u d i j = 0.
Proof. unfold stock_at. ring. Qed.

Lemma tree_value_call_zero_spot (K : R) :
  0 <= K -> forall k i j : nat, tree_value 0 K r dt u d p "call" k i j = 0.
Proof.
  intros HK. induction k as [| k IH]; intros i j; simpl.
  - unfold terminal_value, exercise. simpl. rewrite stock_at_zero.
    apply py_max_nonpos_0. lra.
  - rewrite !IH. unfold exercise. simpl. rewrite stock_at_zero.
    replace (exp (- r * dt) * (p * 0 + (1 - p) * 0)) with 0 by ring.
    apply py_max_eq_l. lra.
Qed.

Lemma tree_value_put_zero_strike (S : R) (option_type : string) :
  is_call option_type = false ->
  0 <= S -> forall k i j : nat, tree_value S 0 r dt u d p option_type k i j = 0.
Proof.
  intros Hty HS. induction k as [| k IH]; intros i j; simpl.
  - unfold terminal_value, exercise. rewrite Hty.
    pose proof (stock_at_nonneg S u d Hu Hd i j HS).
    apply py_max_nonpos_0. lra.
  - rewrite !IH. unfold exercise. rewrite Hty.
    pose proof (stock_at_nonneg S u d Hu Hd i j HS).
    replace (exp (- r * dt) * (p * 0 + (1 - p) * 0)) with 0 by ring.
    apply py_max_eq_l. lra.
Qed.

Lemma tree_value_call_zero_strike (S : R) :
  exp (- r * dt) * (p * u + (1 - p) * d) = 1 ->
  0 <= S ->
  forall k i j : nat,
    (j <= i)%nat -> tree_value S 0 r dt u d p "call" k i j = stock_at S u d i j.
Proof.
  intros Hm HS. induction k as [| k IH]; intros i j Hj; simpl.
  - unfold terminal_value, exercise. simpl.
    pose proof (stock_at_nonneg S u d Hu Hd i j HS).
    rewrite py_max_eq_l by lra. ring.
  - rewrite !IH by lia. rewrite (stock_at_martingale S r dt u d p Hm i j Hj).
    unfold exercise. simpl. rewrite py_max_eq_l by lra. reflexivity.
Qed.

Lemma tree_value_put_zero_spot (K : R) (option_type : string) :
  is_call option_type = false ->
  0 <= K -> exp (- r * dt) <= 1 ->
  forall k i j : nat, tree_value 0 K r dt u d p option_type k i j = K.
Proof.
  intros Hty HK Hdisc. induction k as [| k IH]; intros i j; simpl.
  - unfold terminal_value, exercise. rewrite Hty, stock_at_zero.
    rewrite py_max_eq_l by lra. ring.
  - rewrite !IH. unfold exercise. rewrite Hty, stock_at_zero.
    replace (exp (- r * dt) * (p * K + (1 - p) * K)) with (exp (- r * dt) * K) by ring.
    replace (K - 0) with K by ring.
    apply py_max_le_r. pose proof (exp_pos (- r * dt)). nra.
Qed.

End Edges.



(** ** One step *)



(** ** The Calculate handler *)

Example lower_select_box : lower "Call" = "call"%string /\ lower "Put" = "put"%string.
Proof. split; reflexivity. Qed.

Lemma on_calculate_unfold (S K : R) (days : Z) (r sigma : R) (option_type : string) :
  on_calculate S K days r sigma option_type
  = (price <~ binomial_tree S K (IZR days / 365) r sigma (Z.max days 100)
                            (lower option_type) ;;
     greeks <~ calculate_greeks S K (IZR days / 365) r sigma (Z.max days 100)
                                (lower option_type) ;;
     Ok (price, greeks)).
Proof. unfold on_calculate. rewrite py_div_ok by lra. reflexivity. Qed.

Lemma days_over_year (days : Z) : 1 / 365 < IZR days / 365 <-> (2 <= days)%Z.
Proof.
  split.
  - intros H. assert (H1 : IZR 1 < IZR days) by lra.
    apply lt_IZR in H1. lia.
  - intros H. assert (H1 : IZR 2 <= IZR days) by (apply IZR_le; exact H). lra.
Qed.





(** ** When the risk-neutral probability is a probability *)

Lemma exp_le_inv' (x y : R) : exp x <= exp y -> x <= y.
Proof.
  intros H. destruct (Rle_dec x y) as [L | N]; [exact L | exfalso].
  assert (Hlt : exp y < exp x) by (apply exp_increasing; lra). lra.
Qed.


